(** * frac: a lightweight rational type over machine integers

    Shallow embedding of [frac.go].  A Go [int] is modelled as a [Z] kept in
    the two's-complement range of a 64-bit word; every arithmetic operator
    of the source is written with its wrap-around.  A run-time panic
    ("integer divide by zero") is an explicit outcome of the operations
    that divide. *)

From Stdlib Require Import ZArith Znumtheory QArith Lia Bool List String Ascii.
From Stdlib Require Import Morphisms Setoid.
From Equations Require Import Equations.
Import ListNotations.

Local Open Scope Z_scope.

(** ** Outcomes of a Go computation *)

Inductive fault : Type :=
| DivideByZero.

Inductive result (A : Type) : Type :=
| Ok (a : A)
| Panic (e : fault).

Arguments Ok {A} a.
Arguments Panic {A} e.

Definition bind {A B : Type} (m : result A) (k : A -> result B) : result B :=
  match m with
  | Ok a => k a
  | Panic e => Panic e
  end.

Notation "x <- m ;; k" := (bind m (fun x => k))
  (at level 61, m at next level, right associativity).

(** ** Machine integers *)

Module Int.

(** Width of Go's [int] on the 64-bit platforms. *)
Definition w : Z := 64.
Definition modulus : Z := 2 ^ w.
Definition min_int : Z := - 2 ^ (w - 1).
Definition max_int : Z := 2 ^ (w - 1) - 1.

(** Reduction of a mathematical integer to its two's-complement
    representative. *)
Definition wrap (v : Z) : Z := (v - min_int) mod modulus + min_int.

Definition in_range (v : Z) : Prop := min_int <= v <= max_int.

(** Values whose negation is representable as well. *)
Definition symmetric (v : Z) : Prop := Z.abs v <= max_int.

Definition add (a b : Z) : Z := wrap (a + b).
Definition sub (a b : Z) : Z := wrap (a - b).
Definition mul (a b : Z) : Z := wrap (a * b).
Definition neg (a : Z) : Z := wrap (- a).

(** Go's [^] on [int]: bitwise exclusive or of the two's-complement
    representations. *)
Definition xor (a b : Z) : Z := Z.lxor a b.

(** Go's [/] on [int]: truncated quotient; panics on a zero divisor; the
    one overflowing case [min_int / -1] wraps. *)
Definition div (a b : Z) : result Z :=
  if b =? 0 then Panic DivideByZero else Ok (wrap (Z.quot a b)).

(** Go's [%] on [int]: remainder of the truncated quotient; panics on a
    zero divisor.  Its magnitude is below the divisor's, so it never
    overflows. *)
Definition rem (a b : Z) : result Z :=
  if b =? 0 then Panic DivideByZero else Ok (Z.rem a b).

End Int.

(** ** The fraction type *)

Record F : Type := mkF { N : Z; D : Z }.

Definition wf (x : F) : Prop := Int.in_range (N x) /\ Int.in_range (D x).

(** The rational number a fraction with a positive denominator stands
    for. *)
Definition value (x : F) : Q := Qmake (N x) (Z.to_pos (D x)).

(** [abs] returns the distance of the argument from zero. *)
Definition abs (x : Z) : Z :=
  if x <? 0 then Int.neg x else x.

(** [GCD]: the loop [for y != 0 { x, y = y, x%y }] followed by [abs(x)].
    The guard [y != 0] keeps [%] from panicking, so the remainder is taken
    directly. *)
Equations? GCD (x y : Z) : Z by wf (Z.abs_nat y) lt :=
  GCD x y with Z.eq_dec y 0 => {
    | left _ := abs x;
    | right _ := GCD y (Z.rem x y) }.
Proof.
  pose proof (Z.rem_bound_abs x y n). lia.
Qed.

(** The same loop, one iteration per unit of fuel; [None] when the fuel
    runs out before the loop exits. *)
Fixpoint GCD_loop (fuel : nat) (x y : Z) : option Z :=
  match fuel with
  | O => None
  | S fuel' => if y =? 0 then Some (abs x) else GCD_loop fuel' y (Z.rem x y)
  end.

(** [LCM] returns the least common multiple of x and y. *)
Definition LCM (x y : Z) : result Z :=
  if (x =? y) || (x =? Int.neg y) then Ok x
  else
    q <- Int.div x (GCD x y) ;;
    Ok (abs (Int.mul q y)).

(** ** Arithmetic on fractions *)

(** [Mul] returns the product of x*y. *)
Definition Mul (x y : F) : F :=
  mkF (Int.mul (N x) (N y)) (Int.mul (D x) (D y)).

(** [Div] returns the quotient of x/y. *)
Definition Div (x y : F) : F :=
  let y := if N y <? 0 then mkF (Int.neg (N y)) (Int.neg (D y)) else y in
  mkF (Int.mul (N x) (D y)) (Int.mul (D x) (N y)).

(** The cross-multiplication shared by [Add] and [Sub]:
    [x.N *= y.D; y.N *= x.D; x.D *= y.D], in this order. *)
Definition cross (x y : F) : F * F :=
  if D x =? D y then (x, y)
  else
    let x1 := mkF (Int.mul (N x) (D y)) (D x) in
    let y1 := mkF (Int.mul (N y) (D x1)) (D y) in
    let x2 := mkF (N x1) (Int.mul (D x1) (D y1)) in
    (x2, y1).

(** [Add] returns the sum of x+y. *)
Definition Add (x y : F) : F :=
  let '(x, y) := cross x y in
  mkF (Int.add (N x) (N y)) (D x).

(** [Sub] returns the difference of x-y. *)
Definition Sub (x y : F) : F :=
  let '(x, y) := cross x y in
  mkF (Int.sub (N x) (N y)) (D x).

(** [Reduce] returns an equivalent to x represented in lowest terms. *)
Definition Reduce (x : F) : result F :=
  let d := GCD (N x) (D x) in
  n <- Int.div (N x) d ;;
  d' <- Int.div (D x) d ;;
  if d' <? 0 then Ok (mkF (Int.neg n) (Int.neg d')) else Ok (mkF n d').

(** [NormTo] returns an equivalent to x scaled to match the minimum shared
    multiple of y.D. *)
Definition NormTo (x y : F) : result F :=
  if D x =? D y then Ok x
  else
    r <- Reduce x ;;
    m <- LCM (D r) (D y) ;;
    q <- Int.div m (D x) ;;
    Ok (mkF (Int.mul q (N x)) m).

(** [Inv] returns the inversion of x. *)
Definition Inv (x : F) : F :=
  if N x <? 0 then mkF (Int.neg (D x)) (Int.neg (N x))
  else mkF (D x) (N x).

(** [Abs] returns the rational distance of x from zero. *)
Definition Abs (x : F) : F :=
  let x := if N x <? 0 then mkF (Int.neg (N x)) (D x) else x in
  let x := if D x <? 0 then mkF (N x) (Int.neg (D x)) else x in
  x.

(** [Cmp] compares x and y: -1 if x < y, 0 if x == y, +1 if x > y. *)
Definition Cmp (x y : F) : Z :=
  let '(x, y) :=
    if D x =? D y then (x, y)
    else
      let x1 := mkF (Int.mul (N x) (D y)) (D x) in
      let y1 := mkF (Int.mul (N y) (D x1)) (D y) in
      (x1, y1) in
  if N x <? N y then -1
  else if N x >? N y then 1
  else 0.

(** [IsNeg] returns true if F is arithmetically negative. *)
Definition IsNeg (x : F) : bool := Int.xor (N x) (D x) <? 0.

(** [Assert] panics if x.D is zero, returning x otherwise. *)
Definition Assert (x : F) : result F :=
  _ <- Int.div 1 (D x) ;;
  Ok x.

(** [Norm] returns bidirectionally normalized equivalents to x and y. *)
Definition Norm (x y : F) : result (F * F) :=
  if D x =? D y then Ok (x, y)
  else
    rx <- Reduce x ;;
    ry <- Reduce y ;;
    m <- LCM (D rx) (D ry) ;;
    let m := if m <=? D x then D x
             else if m <? D y then D y
             else m in
    qx <- Int.div m (D x) ;;
    qy <- Int.div m (D y) ;;
    Ok (mkF (Int.mul qx (N x)) m, mkF (Int.mul qy (N y)) m).

(** ** Text boundary *)

Module strconv.

Inductive error : Type :=
| ErrSyntax
| ErrRange.

Definition digit (c : ascii) : option Z :=
  let n := Z.of_N (N_of_ascii c) in
  if (48 <=? n) && (n <=? 57) then Some (n - 48) else None.

(** The digit loop of [ParseUint] in base 10 with a 64-bit result: a
    byte that is no digit is a syntax error as soon as it is met, a value
    above [2^64 - 1] a range error as soon as it is reached. *)
Fixpoint parse_digits (n : Z) (s : string) : Z * option error :=
  match s with
  | EmptyString => (n, None)
  | String c s' =>
      match digit c with
      | None => (0, Some ErrSyntax)
      | Some d =>
          if Int.modulus - 1 <? n * 10 + d
          then (Int.modulus - 1, Some ErrRange)
          else parse_digits (n * 10 + d) s'
      end
  end.

Definition ParseUint (s : string) : Z * option error :=
  match s with
  | EmptyString => (0, Some ErrSyntax)
  | _ => parse_digits 0 s
  end.

(** Modelled from the spec: [strconv.Atoi] belongs to Go's standard
    library and is not among the repository's sources; "each substring is
    parsed as a base-10 signed integer".  An optional sign, then at least
    one decimal digit and nothing else; the value has to fit an [int].
    On a syntax error the value returned is 0, on a range error the
    nearest bound. *)
Definition Atoi (s : string) : Z * option error :=
  match s with
  | EmptyString => (0, Some ErrSyntax)
  | String c s' =>
      let '(neg, digits) :=
        if Ascii.eqb c "+" then (false, s')
        else if Ascii.eqb c "-" then (true, s')
        else (false, s) in
      match ParseUint digits with
      | (_, Some ErrSyntax) => (0, Some ErrSyntax)
      | (un, _) =>
          let cutoff := 2 ^ (Int.w - 1) in
          if negb neg && (cutoff <=? un) then (cutoff - 1, Some ErrRange)
          else if neg && (cutoff <? un) then (- cutoff, Some ErrRange)
          else (if neg then - un else un, None)
      end
  end.

Definition digit_char (d : Z) : ascii := ascii_of_N (Z.to_N (48 + d)).

(** The digit loop of [formatBits] in base 10, least significant digit
    first, written ahead of what is already there:
    [for u >= 10 { q := u / 10; a[i] = '0' + u - q*10; u = q }] and then
    the leading digit.  A 64-bit value has at most 20 digits, which bounds
    the iterations. *)
Fixpoint format_digits (fuel : nat) (u : Z) (acc : string) : string :=
  match fuel with
  | O => acc
  | S fuel' =>
      if u <? 10 then String (digit_char u) acc
      else format_digits fuel' (u / 10) (String (digit_char (u mod 10)) acc)
  end.

(** Modelled from the spec: [strconv.AppendInt] with base 10 belongs to
    Go's standard library and is not among the repository's sources; it
    appends the decimal digits of [i] to [b], after a minus sign when [i]
    is negative ("renders ... in base 10"). *)
Definition AppendInt (b : string) (i : Z) : string :=
  b ++ (if i <? 0 then String "-" (format_digits 20 (- i) EmptyString)
        else format_digits 20 i EmptyString).

End strconv.

(** Byte offset of the first ['/'] of [s], as found by the [range] loop of
    [Parse].  The loop walks runes, but ['/'] is a one-byte rune and no
    byte of a longer rune equals it, so the walk is over bytes. *)
Fixpoint index_slash (s : string) : option nat :=
  match s with
  | EmptyString => None
  | String c s' =>
      if Ascii.eqb c "/" then Some O
      else option_map S (index_slash s')
  end.

(** [Parse]: [s, t = s[:i], s[i+1:]] at the first slash, [t] left empty
    when there is none; the numerator is read from [s], the denominator
    from [t] only when the numerator was read and [t] is not empty. *)
Definition Parse (s : string) : F * option strconv.error :=
  let '(s, t) :=
    match index_slash s with
    | Some i => (substring 0 i s, substring (S i) (String.length s - S i) s)
    | None => (s, EmptyString)
    end in
  let '(n, err) := strconv.Atoi s in
  let x := mkF n 1 in
  match err, t with
  | Some _, _ => (x, err)
  | None, EmptyString => (x, err)
  | None, _ =>
      let '(d, err) := strconv.Atoi t in
      (mkF (N x) d, err)
  end.

Module Method.

(** [String]: the sign of a negative denominator is moved to the
    numerator, then numerator, slash and denominator are written in base
    10. *)
Definition String (x : F) : string :=
  let x := if D x <? 0 then mkF (Int.neg (N x)) (Int.neg (D x)) else x in
  let b := EmptyString in
  let b := strconv.AppendInt b (N x) in
  let b := (b ++ "/")%string in
  let b := strconv.AppendInt b (D x) in
  b.

End Method.

(** ** Specification-level notions *)

(** One row of the table of [TestFracs]: what the test asserts about the
    fractions [a] and [b]. *)
Definition fixture (a b na nb nt r add sub mul div : F) : Prop :=
  Norm a b = Ok (na, nb) /\
  Reduce a = Ok r /\
  NormTo a b = Ok nt /\
  Reduce (Add a b) = Ok add /\
  Reduce (Sub a b) = Ok sub /\
  Reduce (Mul a b) = Ok mul /\
  Reduce (Div a b) = Ok div.


(** The sequential clamp of the specification: [m] is raised to [x.D] when
    it does not exceed it, and to [y.D] only otherwise. *)
Definition clamp (xd yd m : Z) : Z :=
  if m <=? xd then xd else if m <? yd then yd else m.

(** [x] rescaled to the denominator [m]: [(m/x.D * x.N, m)]. *)
Definition scale_to (m : Z) (x : F) : result F :=
  q <- Int.div m (D x) ;;
  Ok (mkF (Int.mul q (N x)) m).

(** [Norm] as the specification words it, to be compared with [Norm]. *)
Definition Norm_spec (x y : F) : result (F * F) :=
  if D x =? D y then Ok (x, y)
  else
    rx <- Reduce x ;;
    ry <- Reduce y ;;
    l <- LCM (D rx) (D ry) ;;
    let m := clamp (D x) (D y) l in
    x' <- scale_to m x ;;
    y' <- scale_to m y ;;
    Ok (x', y').

(** The rational number a fraction with a nonzero denominator stands
    for, whatever the sign of the denominator. *)
Definition ratio (x : F) : Q := (inject_Z (N x) / inject_Z (D x))%Q.

(** Lowest terms over the mathematical integers, with the sign carried by
    the numerator. *)
Definition lowest (n d : Z) : F :=
  let g := Z.gcd n d in
  if d ÷ g <? 0 then mkF (- (n ÷ g)) (- (d ÷ g)) else mkF (n ÷ g) (d ÷ g).

(** Congruence modulo [2^w] is compatible with the ring operations. *)
#[local] Instance eqm_modulus_equiv : Equivalence (eqm Int.modulus) :=
  eqm_setoid Int.modulus.

#[local] Instance add_eqm_modulus :
  Proper (eqm Int.modulus ==> eqm Int.modulus ==> eqm Int.modulus) Z.add :=
  Zplus_eqm Int.modulus.

#[local] Instance sub_eqm_modulus :
  Proper (eqm Int.modulus ==> eqm Int.modulus ==> eqm Int.modulus) Z.sub :=
  Zminus_eqm Int.modulus.

#[local] Instance mul_eqm_modulus :
  Proper (eqm Int.modulus ==> eqm Int.modulus ==> eqm Int.modulus) Z.mul :=
  Zmult_eqm Int.modulus.

(** * Properties *)

(** ** The fixtures of the repository's tests *)

Example TestFactors :
  List.map (fun '(a, b) => (GCD a b, LCM a b))
    [(2, 3); (2, 4); (3, 5); (-3, 5); (3, -5); (-3, -5)]
  = [(1, Ok 6); (2, Ok 4); (1, Ok 15); (1, Ok 15); (1, Ok 15); (1, Ok 15)].
Proof. reflexivity. Qed.

Example TestFracs_1 :
  fixture (mkF 1 2) (mkF 1 2) (mkF 1 2) (mkF 1 2) (mkF 1 2) (mkF 1 2)
          (mkF 1 1) (mkF 0 1) (mkF 1 4) (mkF 1 1).
Proof. repeat split. Qed.

Example TestFracs_2 :
  fixture (mkF 2 1) (mkF 2 1) (mkF 2 1) (mkF 2 1) (mkF 2 1) (mkF 2 1)
          (mkF 4 1) (mkF 0 1) (mkF 4 1) (mkF 1 1).
Proof. repeat split. Qed.

Example TestFracs_3 :
  fixture (mkF 1 2) (mkF 2 1) (mkF 1 2) (mkF 4 2) (mkF 1 2) (mkF 1 2)
          (mkF 5 2) (mkF (-3) 2) (mkF 1 1) (mkF 1 4).
Proof. repeat split. Qed.

Example TestFracs_4 :
  fixture (mkF 12 2) (mkF 3 4) (mkF 24 4) (mkF 3 4) (mkF 24 4) (mkF 6 1)
          (mkF 27 4) (mkF 21 4) (mkF 9 2) (mkF 8 1).
Proof. repeat split. Qed.

Example TestFracs_5 :
  fixture (mkF 4 3) (mkF 3 2) (mkF 8 6) (mkF 9 6) (mkF 8 6) (mkF 4 3)
          (mkF 17 6) (mkF (-1) 6) (mkF 2 1) (mkF 8 9).
Proof. repeat split. Qed.

Example TestStr :
  Parse "3/2" = (mkF 3 2, None) /\
  Parse "3/-2" = (mkF 3 (-2), None) /\
  Parse "-3/-2" = (mkF (-3) (-2), None).
Proof. repeat split. Qed.

Example TestStr_String :
  Method.String (mkF 3 2) = "3/2"%string /\
  Method.String (mkF 3 (-2)) = "-3/2"%string /\
  Method.String (mkF (-3) (-2)) = "3/2"%string.
Proof. repeat split. Qed.

Example Parse_no_trim : Parse " 3/2" = (mkF 0 1, Some strconv.ErrSyntax).
Proof. reflexivity. Qed.

Example Parse_no_slash : Parse "-7" = (mkF (-7) 1, None).
Proof. reflexivity. Qed.

(** ** Facts about machine arithmetic *)

Lemma min_int_val : Int.min_int = -9223372036854775808.
Proof. reflexivity. Qed.

Lemma max_int_val : Int.max_int = 9223372036854775807.
Proof. reflexivity. Qed.

Lemma modulus_val : Int.modulus = 18446744073709551616.
Proof. reflexivity. Qed.

Ltac int_consts :=
  unfold Int.in_range, Int.symmetric in *;
  rewrite ?min_int_val, ?max_int_val, ?modulus_val in *.

Lemma wrap_id v : Int.in_range v -> Int.wrap v = v.
Proof.
  intros H. unfold Int.wrap. int_consts.
  rewrite Z.mod_small; lia.
Qed.

Lemma wrap_range v : Int.in_range (Int.wrap v).
Proof.
  unfold Int.wrap. int_consts.
  pose proof (Z.mod_pos_bound (v - -9223372036854775808) 18446744073709551616).
  lia.
Qed.

Lemma wrap_congr a b :
  a mod Int.modulus = b mod Int.modulus -> Int.wrap a = Int.wrap b.
Proof.
  intros H. unfold Int.wrap.
  rewrite <- (Zminus_mod_idemp_l a), <- (Zminus_mod_idemp_l b), H.
  reflexivity.
Qed.

Lemma wrap_mod v : Int.wrap v mod Int.modulus = v mod Int.modulus.
Proof.
  unfold Int.wrap.
  rewrite <- Zplus_mod_idemp_l, Z.mod_mod by (rewrite modulus_val; lia).
  rewrite Zplus_mod_idemp_l. f_equal. lia.
Qed.

Lemma wrap_add_l a b : Int.wrap (Int.wrap a + b) = Int.wrap (a + b).
Proof.
  apply wrap_congr.
  rewrite <- Zplus_mod_idemp_l, wrap_mod, Zplus_mod_idemp_l. reflexivity.
Qed.

Lemma wrap_add_r a b : Int.wrap (a + Int.wrap b) = Int.wrap (a + b).
Proof. rewrite Z.add_comm, wrap_add_l, Z.add_comm. reflexivity. Qed.

Lemma wrap_sub_l a b : Int.wrap (Int.wrap a - b) = Int.wrap (a - b).
Proof. unfold Z.sub. apply wrap_add_l. Qed.

Lemma wrap_sub_r a b : Int.wrap (a - Int.wrap b) = Int.wrap (a - b).
Proof.
  apply wrap_congr.
  rewrite <- Zminus_mod_idemp_r, wrap_mod, Zminus_mod_idemp_r. reflexivity.
Qed.

Lemma wrap_mul_l a b : Int.wrap (Int.wrap a * b) = Int.wrap (a * b).
Proof.
  apply wrap_congr.
  rewrite <- Zmult_mod_idemp_l, wrap_mod, Zmult_mod_idemp_l. reflexivity.
Qed.

Lemma wrap_mul_r a b : Int.wrap (a * Int.wrap b) = Int.wrap (a * b).
Proof. rewrite Z.mul_comm, wrap_mul_l, Z.mul_comm. reflexivity. Qed.

Lemma wrap_opp a : Int.wrap (- Int.wrap a) = Int.wrap (- a).
Proof.
  replace (- Int.wrap a) with (0 - Int.wrap a) by lia.
  rewrite wrap_sub_r. f_equal.
Qed.

Lemma symmetric_in_range v : Int.symmetric v -> Int.in_range v.
Proof. int_consts. lia. Qed.

Lemma neg_symmetric v : Int.symmetric v -> Int.neg v = - v.
Proof. intros H. apply wrap_id. int_consts. lia. Qed.

Lemma neg_min_int : Int.neg Int.min_int = Int.min_int.
Proof. reflexivity. Qed.

Lemma neg_in_range v :
  Int.in_range v -> v <> Int.min_int -> Int.neg v = - v.
Proof. intros H Hm. apply wrap_id. int_consts. lia. Qed.

Lemma abs_symmetric v : Int.symmetric v -> abs v = Z.abs v.
Proof.
  intros H. unfold abs. destruct (Z.ltb_spec v 0).
  - rewrite neg_symmetric by assumption. lia.
  - lia.
Qed.

Lemma abs_in_range v : Int.in_range v -> Int.in_range (abs v).
Proof.
  intros H. unfold abs. destruct (v <? 0); [apply wrap_range | assumption].
Qed.

Lemma abs_zero_iff v : Int.in_range v -> (abs v = 0 <-> v = 0).
Proof.
  intros H. unfold abs. destruct (Z.ltb_spec v 0); [| tauto].
  split; [| lia]. intros E.
  destruct (Z.eq_dec v Int.min_int) as [-> | Hm].
  - discriminate E.
  - rewrite neg_in_range in E by assumption. lia.
Qed.

Lemma rem_in_range x y : Int.in_range y -> y <> 0 -> Int.in_range (Z.rem x y).
Proof.
  intros H Hy. pose proof (Z.rem_bound_abs x y Hy). int_consts. lia.
Qed.

Lemma Int_rem_guarded x y : y <> 0 -> Int.rem x y = Ok (Z.rem x y).
Proof.
  intros Hy. unfold Int.rem. destruct (Z.eqb_spec y 0); [contradiction | reflexivity].
Qed.

(** ** The Euclidean loop *)

Lemma GCD_body x y :
  GCD x y = if y =? 0 then abs x else GCD y (Z.rem x y).
Proof.
  rewrite GCD_equation_1.
  destruct (Z.eq_dec y 0) as [-> | Hy]; simpl.
  - reflexivity.
  - destruct (Z.eqb_spec y 0); [contradiction | reflexivity].
Qed.

Lemma gcd_rem x y : Z.gcd y (Z.rem x y) = Z.gcd x y.
Proof.
  destruct (Z.eq_dec y 0) as [-> | Hy].
  - rewrite Z.rem_0_r_ext by reflexivity. apply Z.gcd_comm.
  - rewrite Z.rem_eq by assumption.
    replace (x - y * (x ÷ y)) with (x + (- (x ÷ y)) * y) by ring.
    rewrite Z.gcd_add_mult_diag_r. apply Z.gcd_comm.
Qed.

(** The value the loop ends with: its magnitude is the mathematical gcd,
    and it is representable whenever the operands are. *)
Lemma GCD_last x y :
  exists r, GCD x y = abs r /\ Z.abs r = Z.gcd x y /\
            (Int.in_range x -> Int.in_range y -> Int.in_range r).
Proof.
  funelim (GCD x y).
  - exists x. clear Heq Heqcall. subst y. rewrite Z.gcd_0_r. auto.
  - destruct H as (r & Hr & Hg & Hin).
    exists r. rewrite gcd_rem in Hg.
    split; [assumption | split; [assumption |]].
    intros _ Hy. apply Hin; [assumption | apply rem_in_range; assumption].
Qed.

Lemma GCD_in_range x y :
  Int.in_range x -> Int.in_range y -> Int.in_range (GCD x y).
Proof.
  intros Hx Hy. destruct (GCD_last x y) as (r & -> & _ & Hin).
  apply abs_in_range; auto.
Qed.

Lemma GCD_zero_iff x y :
  Int.in_range x -> Int.in_range y -> (GCD x y = 0 <-> x = 0 /\ y = 0).
Proof.
  intros Hx Hy. destruct (GCD_last x y) as (r & -> & Hg & Hin).
  rewrite abs_zero_iff by auto.
  split.
  - intros ->. apply Z.gcd_eq_0. symmetry. exact Hg.
  - intros [-> ->]. simpl in Hg. lia.
Qed.

Lemma gcd_le_abs x y : x <> 0 \/ y <> 0 -> Z.gcd x y <= Z.max (Z.abs x) (Z.abs y).
Proof.
  intros H.
  pose proof (Z.gcd_nonneg x y).
  destruct (Z.eq_dec x 0) as [-> | Hx].
  - rewrite Z.gcd_0_l. lia.
  - assert (Z.gcd x y <= Z.abs x); [| lia].
    apply Z.divide_pos_le; [lia |].
    apply Z.divide_abs_r. apply Z.gcd_divide_l.
Qed.

Lemma GCD_symmetric x y :
  Int.symmetric x -> Int.symmetric y -> GCD x y = Z.gcd x y.
Proof.
  intros Hx Hy. destruct (GCD_last x y) as (r & -> & Hg & _).
  rewrite abs_symmetric; [assumption |].
  unfold Int.symmetric in *. rewrite Hg.
  destruct (Z.eq_dec x 0) as [-> | Hx0].
  - rewrite Z.gcd_0_l. assumption.
  - pose proof (gcd_le_abs x y (or_introl Hx0)). lia.
Qed.

(** Outside the one case where the gcd is [2^(w-1)], the machine result is
    the mathematical gcd. *)
Lemma GCD_exact x y :
  Int.in_range x -> Int.in_range y -> Z.gcd x y <= Int.max_int ->
  GCD x y = Z.gcd x y.
Proof.
  intros Hx Hy Hg. destruct (GCD_last x y) as (r & -> & Hr & _).
  rewrite abs_symmetric; [assumption |].
  unfold Int.symmetric. rewrite Hr. assumption.
Qed.

Lemma GCD_loop_enough fuel :
  forall x y, (Z.abs_nat y < fuel)%nat -> GCD_loop fuel x y = Some (GCD x y).
Proof.
  induction fuel as [| fuel IH]; intros x y Hlt; [lia |].
  simpl. rewrite (GCD_body x y).
  destruct (Z.eqb_spec y 0) as [_ | Hy]; [reflexivity |].
  apply IH. pose proof (Z.rem_bound_abs x y Hy). lia.
Qed.

(** C9. [GCD] terminates on every pair of integers, negative and zero
    operands included: the remainder taken by an iteration is strictly
    smaller in magnitude than the divisor [y] (and [%] is only reached with
    [y <> 0]), so the loop run with [|y| + 1] iterations or more exits with
    the value of the function defined by well-founded recursion on [|y|],
    which satisfies the equation of the loop. *)
Theorem GCD_terminates x y :
  match Int.rem x y with
  | Ok r => Z.abs r < Z.abs y
  | Panic _ => y = 0
  end /\
  (exists fuel, forall k, GCD_loop (fuel + k) x y = Some (GCD x y)) /\
  GCD x y = (if y =? 0 then abs x else GCD y (Z.rem x y)).
Proof.
  split; [| split].
  - unfold Int.rem. destruct (Z.eqb_spec y 0) as [-> | Hy]; [reflexivity |].
    apply Z.rem_bound_abs. assumption.
  - exists (S (Z.abs_nat y)). intros k. apply GCD_loop_enough. lia.
  - apply GCD_body.
Qed.

(** ** Absolute value at the minimum integer *)

(** C10. When a field of [x] is the minimum machine integer, its negation
    wraps around to itself, so [Abs] returns that field unchanged, and the
    result has a negative numerator or denominator. *)
Theorem Abs_min_int x :
  (N x = Int.min_int ->
   Int.neg (N x) = Int.min_int /\ N (Abs x) = Int.min_int /\ N (Abs x) < 0) /\
  (D x = Int.min_int ->
   Int.neg (D x) = Int.min_int /\ D (Abs x) = Int.min_int /\ D (Abs x) < 0).
Proof.
  destruct x as [n d]. unfold Abs. simpl. split; intros ->.
  - rewrite neg_min_int. simpl.
    destruct (d <? 0); simpl; repeat split; reflexivity.
  - rewrite neg_min_int.
    destruct (n <? 0); simpl; repeat split; reflexivity.
Qed.

Lemma Abs_min_int_witness :
  N (Abs (mkF Int.min_int 3)) < 0 /\ D (Abs (mkF 3 Int.min_int)) < 0.
Proof.
  split.
  - apply (proj1 (Abs_min_int (mkF Int.min_int 3))). reflexivity.
  - apply (proj2 (Abs_min_int (mkF 3 Int.min_int))). reflexivity.
Defined.

(** ** Where a divide-by-zero panic can arise *)

Lemma Assert_panics_iff x : Assert x = Panic DivideByZero <-> D x = 0.
Proof.
  unfold Assert, Int.div.
  destruct (Z.eqb_spec (D x) 0); simpl; split; intros; try easy.
Qed.

Lemma Assert_ok x : D x <> 0 -> Assert x = Ok x.
Proof.
  intros H. unfold Assert, Int.div.
  destruct (Z.eqb_spec (D x) 0); [contradiction | reflexivity].
Qed.

Lemma Reduce_panics_iff x :
  wf x -> (Reduce x = Panic DivideByZero <-> N x = 0 /\ D x = 0).
Proof.
  intros [Hn Hd]. unfold Reduce, Int.div.
  pose proof (GCD_zero_iff (N x) (D x) Hn Hd) as Hz.
  destruct (Z.eqb_spec (GCD (N x) (D x)) 0) as [E | E]; simpl.
  - tauto.
  - destruct (_ <? 0); split; intros; try easy; tauto.
Qed.


Lemma panic_unique (A : Type) (e : fault) : @Panic A e = Panic DivideByZero.
Proof. destruct e. reflexivity. Qed.

(** C2. The code departs from the claim on [NormTo] and [Norm]: with
    different denominators, one of them zero, the scale factor [m / x.D]
    (or [m / y.D]) divides by zero, whatever the numerators are. *)
Theorem Norm_zero_denominator_panics x y :
  D x <> D y ->
  D x = 0 \/ D y = 0 ->
  Norm x y = Panic DivideByZero /\
  (D x = 0 -> NormTo x y = Panic DivideByZero).
Proof.
  intros Hne Hz. split.
  - unfold Norm. destruct (Z.eqb_spec (D x) (D y)); [contradiction |].
    destruct (Reduce x) as [rx | e]; simpl; [| apply panic_unique].
    destruct (Reduce y) as [ry | e]; simpl; [| apply panic_unique].
    destruct (LCM (D rx) (D ry)) as [m | e]; simpl; [| apply panic_unique].
    unfold Int.div. destruct Hz as [E | E].
    + rewrite E. reflexivity.
    + destruct (D x =? 0); simpl; [reflexivity |]. rewrite E. reflexivity.
  - intros E. unfold NormTo.
    destruct (Z.eqb_spec (D x) (D y)); [contradiction |].
    destruct (Reduce x) as [rx | e]; simpl; [| apply panic_unique].
    destruct (LCM (D rx) (D y)) as [m | e]; simpl; [| apply panic_unique].
    unfold Int.div. rewrite E. reflexivity.
Qed.

Lemma Norm_zero_denominator_panics_witness :
  Norm (mkF 1 0) (mkF 1 2) = Panic DivideByZero /\
  NormTo (mkF 1 0) (mkF 1 2) = Panic DivideByZero.
Proof.
  destruct (Norm_zero_denominator_panics (mkF 1 0) (mkF 1 2)) as [H1 H2].
  - simpl. lia.
  - left. reflexivity.
  - split; [exact H1 | apply H2; reflexivity].
Defined.

(** ** Parsing *)

Lemma substring_prefix s t : substring 0 (String.length s) (s ++ t) = s.
Proof.
  induction s as [| c s IH]; simpl.
  - destruct t; reflexivity.
  - rewrite IH. reflexivity.
Qed.

Lemma substring_nothing n s : substring n 0 s = EmptyString.
Proof.
  revert n. induction s as [| c s IH]; intros [| n]; simpl; auto.
Qed.

Lemma index_slash_append s :
  index_slash s = None -> index_slash (s ++ "/") = Some (String.length s).
Proof.
  induction s as [| c s IH]; simpl; [reflexivity |].
  destruct (Ascii.eqb c "/"); [discriminate |].
  destruct (index_slash s); [discriminate |].
  intros _. rewrite IH; reflexivity.
Qed.

Lemma length_append_one s c :
  String.length (s ++ String c EmptyString) = S (String.length s).
Proof. induction s; simpl; congruence. Qed.

(** A slash that ends the text is dropped: the empty denominator is taken
    for an absent one. *)
Lemma Parse_trailing_slash s :
  index_slash s = None -> Parse (s ++ "/") = Parse s.
Proof.
  intros H. unfold Parse.
  rewrite (index_slash_append s H), H.
  rewrite substring_prefix, length_append_one, Nat.sub_diag, substring_nothing.
  destruct (strconv.Atoi s) as [n [e |]]; reflexivity.
Qed.

(** C7. The code departs from the claim on a text that ends with its first
    slash: the denominator substring is empty, which [Atoi] rejects and
    which makes [Parse] fail when it is the numerator, yet [Parse] returns
    the numerator over 1 with no error. *)
Theorem Parse_empty_denominator :
  Parse "3/" = (mkF 3 1, None) /\
  strconv.Atoi "" = (0, Some strconv.ErrSyntax) /\
  Parse "/3" = (mkF 0 1, Some strconv.ErrSyntax).
Proof. repeat split. Qed.

(** ** Growth of denominators *)









(** ** Comparison *)

Lemma Cmp_cross x y :
  Cmp x y =
  if D x =? D y then Z.sgn (N x - N y)
  else Z.sgn (Int.mul (N x) (D y) - Int.mul (N y) (D x)).
Proof.
  unfold Cmp. destruct (D x =? D y); simpl.
  - destruct (Z.ltb_spec (N x) (N y)); [lia |].
    destruct (Z.gtb_spec (N x) (N y)); lia.
  - destruct (Z.ltb_spec (Int.mul (N x) (D y)) (Int.mul (N y) (D x))); [lia |].
    destruct (Z.gtb_spec (Int.mul (N x) (D y)) (Int.mul (N y) (D x))); lia.
Qed.

(** C6, as the code has it.  For positive denominators and cross products
    that are representable, [Cmp] compares the cross products when the
    denominators differ and the numerators when they are equal, and the
    result is -1, 0 or +1 as the rational value of [x] is less than, equal
    to or greater than that of [y]: the sign of [x.N*y.D - y.N*x.D]. *)
Theorem Cmp_sign x y :
  0 < D x -> 0 < D y ->
  Int.in_range (N x * D y) -> Int.in_range (N y * D x) ->
  Cmp x y = Z.sgn (N x * D y - N y * D x) /\
  Cmp x y = match Qcompare (value x) (value y) with
            | Lt => -1
            | Eq => 0
            | Gt => 1
            end.
Proof.
  intros Hx Hy Hxy Hyx.
  assert (E : Cmp x y = Z.sgn (N x * D y - N y * D x)).
  { rewrite Cmp_cross. destruct (Z.eqb_spec (D x) (D y)) as [E | E].
    - rewrite <- E. rewrite <- Z.mul_sub_distr_r, Z.sgn_mul.
      rewrite (Z.sgn_pos (D x)) by assumption. lia.
    - unfold Int.mul. rewrite !wrap_id by assumption. reflexivity. }
  split; [exact E |].
  rewrite E. unfold Qcompare, value. simpl.
  rewrite !Z2Pos.id by assumption.
  destruct (Z.compare_spec (N x * D y) (N y * D x)); lia.
Qed.

Lemma Cmp_sign_witness :
  Cmp (mkF 1 2) (mkF 2 3) = Z.sgn (1 * 3 - 2 * 2) /\
  Cmp (mkF 1 2) (mkF 2 3) =
    match Qcompare (value (mkF 1 2)) (value (mkF 2 3)) with
    | Lt => -1
    | Eq => 0
    | Gt => 1
    end.
Proof.
  apply (Cmp_sign (mkF 1 2) (mkF 2 3)).
  - simpl. lia.
  - simpl. lia.
  - vm_compute. split; discriminate.
  - vm_compute. split; discriminate.
Defined.

(** With positive denominators, but a cross product that overflows, the
    comparison is wrong: 2^62/1 compares equal to 0/4. *)
Lemma Cmp_sign_counterexample :
  let x := mkF 4611686018427387904 1 in
  let y := mkF 0 4 in
  0 < D x /\ 0 < D y /\
  Cmp x y = 0 /\
  Cmp x y <> Z.sgn (N x * D y - N y * D x) /\
  Qcompare (value x) (value y) = Gt.
Proof. repeat split. discriminate. Qed.

(** ** Least common multiple *)

Lemma LCM_short_circuit a b :
  a = b \/ a = Int.neg b -> LCM a b = Ok a.
Proof.
  intros H. unfold LCM.
  destruct (Z.eqb_spec a b); simpl; [reflexivity |].
  destruct (Z.eqb_spec a (Int.neg b)); [reflexivity | tauto].
Qed.

Lemma symmetric_factor_l a b : b <> 0 -> Int.symmetric (a * b) -> Int.symmetric a.
Proof. unfold Int.symmetric. rewrite Z.abs_mul. nia. Qed.

Lemma symmetric_factor_r a b : a <> 0 -> Int.symmetric (a * b) -> Int.symmetric b.
Proof. unfold Int.symmetric. rewrite Z.abs_mul. nia. Qed.

Lemma quot_gcd_l a b : a = Z.gcd a b * (a ÷ Z.gcd a b).
Proof.
  destruct (Z.gcd_divide_l a b) as [k Hk].
  generalize dependent (Z.gcd a b). intros g Hk. subst a.
  destruct (Z.eq_dec g 0) as [-> | E].
  - lia.
  - rewrite Z.quot_mul by assumption. ring.
Qed.

Lemma LCM_GCD_identity a b :
  a <> 0 -> b <> 0 -> Z.abs a <> Z.abs b -> Int.symmetric (a * b) ->
  exists l, LCM a b = Ok l /\ Int.mul l (GCD a b) = Z.abs (a * b).
Proof.
  intros Ha Hb Hab Hs.
  pose proof (symmetric_factor_l a b Hb Hs) as Hsa.
  pose proof (symmetric_factor_r a b Ha Hs) as Hsb.
  unfold LCM. rewrite (neg_symmetric b Hsb).
  destruct (Z.eqb_spec a b); [lia |].
  destruct (Z.eqb_spec a (- b)); [lia |]. simpl.
  rewrite (GCD_symmetric a b Hsa Hsb).
  pose proof (Z.gcd_nonneg a b) as Hg0.
  assert (Hg : Z.gcd a b <> 0).
  { intros E. apply Z.gcd_eq_0 in E. lia. }
  pose proof (quot_gcd_l a b) as Hq.
  set (g := Z.gcd a b) in *. set (q := a ÷ g) in *.
  assert (Eab : a * b = g * (q * b)) by (rewrite Hq; ring).
  assert (Hqb : Z.abs (q * b) <= Z.abs (a * b)).
  { rewrite Eab. rewrite (Z.abs_mul g). nia. }
  unfold Int.div. destruct (Z.eqb_spec g 0); [contradiction |]. simpl.
  assert (Hsq : Int.symmetric q).
  { unfold Int.symmetric in *. rewrite Hq in Hsa. rewrite Z.abs_mul in Hsa. nia. }
  fold q. rewrite (wrap_id q) by (apply symmetric_in_range; assumption).
  assert (Hsqb : Int.symmetric (q * b)).
  { unfold Int.symmetric in *. lia. }
  unfold Int.mul at 1.
  exists (Z.abs (q * b)). split.
  - rewrite wrap_id by (apply symmetric_in_range; assumption).
    rewrite abs_symmetric by assumption. reflexivity.
  - unfold Int.mul.
    assert (E : Z.abs (q * b) * g = Z.abs (a * b)).
    { rewrite Eab. rewrite (Z.abs_mul g), (Z.abs_eq g) by assumption. ring. }
    rewrite E. apply wrap_id. apply symmetric_in_range.
    unfold Int.symmetric in *. rewrite Z.abs_idemp. assumption.
Qed.

(** C8, as the code has it.  For nonzero [a] and [b] of different
    magnitudes whose product is representable together with its negation,
    [LCM(a,b) * GCD(a,b)] is [|a*b|]; when [a == b] or [a == -b], [LCM]
    returns [a] itself. *)
Theorem LCM_GCD_product a b :
  (a = b \/ a = Int.neg b -> LCM a b = Ok a) /\
  (a <> 0 -> b <> 0 -> Z.abs a <> Z.abs b -> Int.symmetric (a * b) ->
   exists l, LCM a b = Ok l /\ Int.mul l (GCD a b) = Z.abs (a * b)).
Proof.
  split; [apply LCM_short_circuit | apply LCM_GCD_identity].
Qed.

Lemma LCM_GCD_product_witness :
  (exists l, LCM (-3) 5 = Ok l /\ Int.mul l (GCD (-3) 5) = Z.abs (-3 * 5)) /\
  LCM (-3) (-3) = Ok (-3) /\ LCM 3 (-3) = Ok 3.
Proof.
  assert (Hs : Int.symmetric (-3 * 5)) by (vm_compute; discriminate).
  split; [| split].
  - apply (proj2 (LCM_GCD_product (-3) 5)); [lia | lia | lia | exact Hs].
  - apply (proj1 (LCM_GCD_product (-3) (-3))). left. reflexivity.
  - apply (proj1 (LCM_GCD_product 3 (-3))). right. reflexivity.
Defined.

(** Without the bound on the product the identity fails: for 6*10^9 and
    9*10^9 the gcd and the lcm are computed exactly, and their product
    wraps around. *)
Lemma LCM_GCD_product_counterexample :
  let a := 6000000000 in
  let b := 9000000000 in
  a <> 0 /\ b <> 0 /\ Z.abs a <> Z.abs b /\
  LCM a b = Ok 18000000000 /\ GCD a b = 3000000000 /\
  Int.mul 18000000000 (GCD a b) <> Z.abs (a * b) /\
  Int.mul 18000000000 (GCD a b) <> abs (Int.mul a b).
Proof.
  assert (G : GCD 6000000000 9000000000 = 3000000000) by reflexivity.
  cbv zeta. rewrite G.
  repeat split; try reflexivity; intros H; vm_compute in H; discriminate H.
Qed.

(** ** Reduction to lowest terms *)

Lemma quot_between n d : 0 < d -> Z.min 0 n <= n ÷ d <= Z.max 0 n.
Proof.
  intros Hd. pose proof (Z.quot_rem' n d) as E.
  destruct (Z_le_gt_dec 0 n) as [Hn | Hn].
  - pose proof (Z.rem_bound_pos n d Hn Hd). nia.
  - assert (Hn' : n <= 0) by lia.
    pose proof (Z.rem_bound_pos_neg n d Hd Hn'). nia.
Qed.

Lemma quot_in_range n g : Int.in_range n -> 0 < g -> Int.in_range (n ÷ g).
Proof.
  intros Hn Hg. pose proof (quot_between n g Hg) as H.
  revert Hn H. generalize (n ÷ g). int_consts. lia.
Qed.

Lemma Int_div_exact n d :
  Int.in_range n -> 0 < d -> Int.div n d = Ok (n ÷ d).
Proof.
  intros Hn Hpos. unfold Int.div.
  destruct (Z.eqb_spec d 0); [lia |].
  rewrite wrap_id; [reflexivity | apply quot_in_range; assumption].
Qed.

Lemma Reduce_lowest x :
  wf x -> 0 <= D x -> Z.gcd (N x) (D x) = 1 -> Reduce x = Ok x.
Proof.
  intros [Hn Hd] Hpos Hg. unfold Reduce.
  rewrite GCD_exact by (try assumption; rewrite Hg, max_int_val; lia).
  rewrite Hg, !Int_div_exact by (assumption || lia). simpl.
  rewrite !Z.quot_1_r.
  destruct (Z.ltb_spec (D x) 0); [lia |]. destruct x; reflexivity.
Qed.

Lemma gcd_quot_coprime n d :
  Z.gcd n d <> 0 -> Z.gcd (n ÷ Z.gcd n d) (d ÷ Z.gcd n d) = 1.
Proof.
  intros Hg.
  pose proof (quot_gcd_l n d) as Hn.
  pose proof (quot_gcd_l d n) as Hd. rewrite (Z.gcd_comm d n) in Hd.
  pose proof (Z.gcd_nonneg n d) as H0.
  set (g := Z.gcd n d) in *.
  assert (E : g = g * Z.gcd (n ÷ g) (d ÷ g)).
  { rewrite <- (Z.abs_eq g) at 2 by assumption.
    rewrite <- Z.gcd_mul_mono_l, <- Hn, <- Hd. reflexivity. }
  pose proof (Z.gcd_nonneg (n ÷ g) (d ÷ g)). nia.
Qed.

(** The three inputs whose gcd is [2^(w-1)], where [abs] wraps. *)
Lemma gcd_above_max n d :
  Int.in_range n -> Int.in_range d -> Int.max_int < Z.gcd n d ->
  (n = Int.min_int \/ n = 0) /\ (d = Int.min_int \/ d = 0) /\
  (n <> 0 \/ d <> 0).
Proof.
  intros Hn Hd Hg.
  destruct (Z.gcd_divide_l n d) as [k Hk].
  destruct (Z.gcd_divide_r n d) as [l Hl].
  assert (Hnz : n <> 0 \/ d <> 0).
  { destruct (Z.eq_dec n 0) as [-> | ?]; [| tauto].
    destruct (Z.eq_dec d 0) as [-> | ?]; [| tauto].
    rewrite Z.gcd_0_l, max_int_val in Hg. simpl in Hg. lia. }
  revert Hk Hl Hn Hd Hg. generalize (Z.gcd n d). int_consts.
  intros g Hk Hl Hn Hd Hg.
  assert (Kk : k = 0 \/ k = -1) by nia.
  assert (Kl : l = 0 \/ l = -1) by nia.
  split; [| split; [| exact Hnz]].
  - destruct Kk as [-> | ->]; lia.
  - destruct Kl as [-> | ->]; lia.
Qed.

Lemma Reduce_min_min : Reduce (mkF Int.min_int Int.min_int) = Ok (mkF 1 1).
Proof. reflexivity. Qed.

Lemma Reduce_min_zero : Reduce (mkF Int.min_int 0) = Ok (mkF 1 0).
Proof. reflexivity. Qed.

Lemma Reduce_zero_min : Reduce (mkF 0 Int.min_int) = Ok (mkF 0 1).
Proof. reflexivity. Qed.

(** Away from the wrap-around of [abs], [Reduce] divides by the
    mathematical gcd. *)
Lemma Reduce_by_gcd x :
  wf x -> 0 < Z.gcd (N x) (D x) <= Int.max_int ->
  Reduce x =
  let g := Z.gcd (N x) (D x) in
  if D x ÷ g <? 0 then Ok (mkF (Int.neg (N x ÷ g)) (Int.neg (D x ÷ g)))
  else Ok (mkF (N x ÷ g) (D x ÷ g)).
Proof.
  intros [Hn Hd] [Hpos Hmax]. unfold Reduce.
  rewrite GCD_exact by assumption.
  rewrite !Int_div_exact by (assumption || lia). reflexivity.
Qed.

Lemma Reduce_result x r :
  wf x -> Reduce x = Ok r -> D r <> Int.min_int ->
  wf r /\ 0 <= D r /\ Z.gcd (N r) (D r) = 1.
Proof.
  intros Hwf Hr Hm. pose proof Hwf as [Hn Hd].
  pose proof (Z.gcd_nonneg (N x) (D x)) as Hg0.
  destruct (Z.eq_dec (Z.gcd (N x) (D x)) 0) as [Ez | Ez].
  { apply Z.gcd_eq_0 in Ez.
    assert (P : Reduce x = Panic DivideByZero) by (apply Reduce_panics_iff; assumption).
    congruence. }
  destruct (Z_lt_le_dec Int.max_int (Z.gcd (N x) (D x))) as [Hbig | Hsmall].
  { destruct (gcd_above_max _ _ Hn Hd Hbig) as ([En | En] & [Ed | Ed] & Hnz);
      destruct x as [n d]; simpl in *; subst n d.
    - rewrite Reduce_min_min in Hr. injection Hr as <-. repeat split; vm_compute; congruence.
    - rewrite Reduce_min_zero in Hr. injection Hr as <-. repeat split; vm_compute; congruence.
    - rewrite Reduce_zero_min in Hr. injection Hr as <-. repeat split; vm_compute; congruence.
    - lia. }
  rewrite Reduce_by_gcd in Hr by (assumption || lia). cbv zeta in Hr.
  pose proof (gcd_quot_coprime (N x) (D x) Ez) as Hco.
  assert (Hpos : 0 < Z.gcd (N x) (D x)) by lia.
  pose proof (quot_in_range (N x) _ Hn Hpos) as Hqn.
  pose proof (quot_in_range (D x) _ Hd Hpos) as Hqd.
  set (n0 := N x ÷ Z.gcd (N x) (D x)) in *.
  set (d0 := D x ÷ Z.gcd (N x) (D x)) in *.
  destruct (Z.ltb_spec d0 0) as [Hneg | Hnn]; injection Hr as <-; simpl in *.
  - assert (Hd0 : d0 <> Int.min_int).
    { intros E. apply Hm. rewrite E. reflexivity. }
    rewrite (neg_in_range d0) by assumption.
    repeat split; try apply wrap_range; try lia.
    + rewrite <- (neg_in_range d0) by assumption. apply wrap_range.
    + rewrite <- (neg_in_range d0) by assumption. apply wrap_range.
    + destruct (Z.eq_dec n0 Int.min_int) as [E | E].
      * rewrite E, neg_min_int, <- E, Z.gcd_opp_r. assumption.
      * rewrite neg_in_range by assumption.
        rewrite Z.gcd_opp_l, Z.gcd_opp_r. assumption.
  - repeat split; try assumption; apply Hqn || apply Hqd.
Qed.

Lemma coprime_min_int_odd n : Z.gcd n Int.min_int = 1 -> Z.odd n = true.
Proof.
  intros Hg. rewrite <- Z.negb_even. destruct (Z.even n) eqn:E; [| reflexivity].
  apply Z.even_spec in E. destruct E as [k Hk].
  assert (Hd : (2 | Z.gcd n Int.min_int)).
  { apply Z.gcd_greatest.
    - exists k. lia.
    - exists (-4611686018427387904). reflexivity. }
  rewrite Hg in Hd. destruct Hd as [c Hc]. lia.
Qed.

(** The reduced denominator is the minimum integer only for an odd
    numerator over the minimum integer, where the final negation wraps. *)
Lemma Reduce_denominator_min x r :
  wf x -> Reduce x = Ok r -> D r = Int.min_int ->
  D x = Int.min_int /\ Z.odd (N x) = true.
Proof.
  intros Hwf Hr Hm. pose proof Hwf as [Hn Hd].
  pose proof (Z.gcd_nonneg (N x) (D x)) as Hg0.
  destruct (Z.eq_dec (Z.gcd (N x) (D x)) 0) as [Ez | Ez].
  { apply Z.gcd_eq_0 in Ez.
    assert (P : Reduce x = Panic DivideByZero) by (apply Reduce_panics_iff; assumption).
    congruence. }
  destruct (Z_lt_le_dec Int.max_int (Z.gcd (N x) (D x))) as [Hbig | Hsmall].
  { destruct (gcd_above_max _ _ Hn Hd Hbig) as ([En | En] & [Ed | Ed] & Hnz);
      destruct x as [n d]; simpl in *; subst n d.
    - rewrite Reduce_min_min in Hr. injection Hr as <-. discriminate Hm.
    - rewrite Reduce_min_zero in Hr. injection Hr as <-. discriminate Hm.
    - rewrite Reduce_zero_min in Hr. injection Hr as <-. discriminate Hm.
    - lia. }
  rewrite Reduce_by_gcd in Hr by (assumption || lia). cbv zeta in Hr.
  assert (Hpos : 0 < Z.gcd (N x) (D x)) by lia.
  pose proof (quot_in_range (D x) _ Hd Hpos) as Hqd.
  pose proof (quot_gcd_l (D x) (N x)) as Hq. rewrite (Z.gcd_comm (D x)) in Hq.
  destruct (Z.ltb_spec (D x ÷ Z.gcd (N x) (D x)) 0) as [Hneg | Hnn];
    injection Hr as <-; simpl in Hm.
  - assert (Hd0 : D x ÷ Z.gcd (N x) (D x) = Int.min_int).
    { destruct (Z.eq_dec (D x ÷ Z.gcd (N x) (D x)) Int.min_int) as [E | E];
        [exact E |].
      rewrite neg_in_range in Hm by assumption.
      rewrite min_int_val in Hm. lia. }
    rewrite Hd0 in Hq.
    assert (Hg1 : Z.gcd (N x) (D x) = 1).
    { revert Hd Hq Hpos. generalize (Z.gcd (N x) (D x)). int_consts. intros; nia. }
    rewrite Hg1 in Hq. split; [lia |].
    apply coprime_min_int_odd. replace Int.min_int with (D x) by lia. exact Hg1.
  - rewrite max_int_val in *. rewrite min_int_val in Hm. lia.
Qed.

(** C4, as the code has it.  [Reduce] is idempotent on every fraction but
    those with an odd numerator over the minimum machine integer: both
    sides panic on 0/0, and otherwise reducing the reduced fraction returns
    it unchanged. *)
Theorem Reduce_idempotent x :
  wf x ->
  (D x = Int.min_int -> Z.even (N x) = true) ->
  (r <- Reduce x ;; Reduce r) = Reduce x.
Proof.
  intros Hwf Hx. destruct (Reduce x) as [r | e] eqn:Hr; simpl; [| reflexivity].
  assert (Hm : D r <> Int.min_int).
  { intros E. destruct (Reduce_denominator_min x r Hwf Hr E) as [Ed Ho].
    rewrite <- Z.negb_even, (Hx Ed) in Ho. discriminate Ho. }
  destruct (Reduce_result x r Hwf Hr Hm) as (Hwr & Hpos & Hco).
  apply Reduce_lowest; assumption.
Qed.

Lemma Reduce_idempotent_witness :
  (r <- Reduce (mkF 12 2) ;; Reduce r) = Reduce (mkF 12 2).
Proof.
  apply Reduce_idempotent.
  - split; vm_compute; split; discriminate.
  - simpl. intros H. discriminate H.
Defined.

(** For 1 over the minimum integer the negation of the denominator wraps:
    the first reduction gives -1 over the minimum integer, the second one
    1 over the minimum integer again. *)
Lemma Reduce_idempotent_counterexample :
  wf (mkF 1 Int.min_int) /\
  Reduce (mkF 1 Int.min_int) = Ok (mkF (-1) Int.min_int) /\
  (r <- Reduce (mkF 1 Int.min_int) ;; Reduce r) = Ok (mkF 1 Int.min_int) /\
  (r <- Reduce (mkF 1 Int.min_int) ;; Reduce r) <> Reduce (mkF 1 Int.min_int).
Proof.
  assert (E1 : Reduce (mkF 1 Int.min_int) = Ok (mkF (-1) Int.min_int))
    by reflexivity.
  assert (E2 : Reduce (mkF (-1) Int.min_int) = Ok (mkF 1 Int.min_int))
    by reflexivity.
  rewrite E1. simpl bind. rewrite E2.
  split; [split; vm_compute; split; discriminate |].
  split; [reflexivity | split; [reflexivity | discriminate]].
Qed.

(** ** Pairwise normalization *)

Lemma Reduce_wf x r : Reduce x = Ok r -> wf r.
Proof.
  unfold Reduce, Int.div.
  destruct (GCD (N x) (D x) =? 0); simpl; [discriminate |].
  destruct (_ <? 0); intros H; injection H as <-; split; apply wrap_range.
Qed.


Lemma Norm_unfold x y : Norm x y = Norm_spec x y.
Proof.
  unfold Norm, Norm_spec, scale_to, clamp.
  destruct (D x =? D y); [reflexivity |].
  destruct (Reduce x) as [rx | e]; simpl; [| reflexivity].
  destruct (Reduce y) as [ry | e]; simpl; [| reflexivity].
  destruct (LCM (D rx) (D ry)) as [l | e]; simpl; [| reflexivity].
  destruct (Int.div _ (D x)) as [qx | e]; simpl; [| reflexivity].
  destruct (Int.div _ (D y)) as [qy | e]; simpl; reflexivity.
Qed.



(** ** Adding and subtracting the same fraction *)

Lemma wrap_eqm v : eqm Int.modulus (Int.wrap v) v.
Proof. apply wrap_mod. Qed.

Ltac wrap_ring :=
  apply wrap_congr;
  match goal with
  | |- ?a mod _ = ?b mod _ => change (eqm Int.modulus a b)
  end;
  rewrite ?wrap_eqm;
  match goal with
  | |- eqm _ ?a ?b => replace a with b by ring; reflexivity
  end.

Lemma symmetric_quot n g : Int.symmetric n -> 0 < g -> Int.symmetric (n ÷ g).
Proof.
  intros Hn Hg. pose proof (quot_between n g Hg) as H.
  revert Hn H. generalize (n ÷ g). int_consts. lia.
Qed.

Lemma Reduce_symmetric n d :
  Int.symmetric n -> Int.symmetric d -> n <> 0 \/ d <> 0 ->
  Reduce (mkF n d) = Ok (lowest n d).
Proof.
  intros Hn Hd Hnz.
  pose proof (Z.gcd_nonneg n d) as Hg0.
  assert (Hg : Z.gcd n d <> 0).
  { intros E. apply Z.gcd_eq_0 in E. lia. }
  assert (Hmax : Z.gcd n d <= Int.max_int).
  { pose proof (gcd_le_abs n d Hnz). unfold Int.symmetric in *. lia. }
  rewrite Reduce_by_gcd;
    [| split; apply symmetric_in_range; assumption | simpl; lia].
  unfold lowest. simpl.
  rewrite !neg_symmetric by (apply symmetric_quot; [assumption | lia]).
  destruct (_ <? 0); reflexivity.
Qed.

Lemma lowest_scale k a b :
  k <> 0 -> 0 < k \/ b <> 0 -> a <> 0 \/ b <> 0 ->
  lowest (k * a) (k * b) = lowest a b.
Proof.
  intros Hk Hkb Hnz. unfold lowest. cbv zeta.
  rewrite Z.gcd_mul_mono_l.
  pose proof (Z.gcd_nonneg a b) as Hg0.
  assert (Hg : Z.gcd a b <> 0).
  { intros E. apply Z.gcd_eq_0 in E. lia. }
  pose proof (quot_gcd_l a b) as Ha.
  pose proof (quot_gcd_l b a) as Hb. rewrite (Z.gcd_comm b a) in Hb.
  set (g := Z.gcd a b) in *.
  set (a' := a ÷ g) in *. set (b' := b ÷ g) in *.
  clearbody a' b' g. subst a b.
  destruct (Z.lt_trichotomy k 0) as [Hneg | [E | Hpos]]; [| contradiction |].
  - rewrite (Z.abs_neq k) by lia.
    replace (k * (g * a')) with (- a' * (- k * g)) by ring.
    replace (k * (g * b')) with (- b' * (- k * g)) by ring.
    rewrite !Z.quot_mul by nia.
    assert (b' <> 0) by nia.
    destruct (Z.ltb_spec (- b') 0), (Z.ltb_spec b' 0); try lia; f_equal; lia.
  - rewrite (Z.abs_eq k) by lia.
    replace (k * (g * a')) with (a' * (k * g)) by ring.
    replace (k * (g * b')) with (b' * (k * g)) by ring.
    rewrite !Z.quot_mul by nia. reflexivity.
Qed.

Lemma Reduce_scale k a b :
  k <> 0 -> 0 < k \/ b <> 0 ->
  Int.symmetric (k * a) -> Int.symmetric (k * b) ->
  Reduce (mkF (k * a) (k * b)) = Reduce (mkF a b).
Proof.
  intros Hk Hkb Hsa Hsb.
  assert (Ha : Int.symmetric a).
  { rewrite Z.mul_comm in Hsa. exact (symmetric_factor_l a k Hk Hsa). }
  assert (Hb : Int.symmetric b).
  { rewrite Z.mul_comm in Hsb. exact (symmetric_factor_l b k Hk Hsb). }
  destruct (Z.eq_dec a 0) as [Ea | Ea]; [destruct (Z.eq_dec b 0) as [Eb | Eb] |].
  - subst a b. rewrite !Z.mul_0_r. reflexivity.
  - rewrite !Reduce_symmetric by (assumption || right; nia || auto).
    f_equal. apply lowest_scale; auto.
  - rewrite !Reduce_symmetric by (assumption || left; nia || auto).
    f_equal. apply lowest_scale; auto.
Qed.

Lemma symmetric_square_factor a b :
  b <> 0 -> Int.symmetric (a * b * b) ->
  Int.symmetric a /\ Int.symmetric (a * b).
Proof.
  intros Hb H.
  pose proof (symmetric_factor_l (a * b) b Hb H) as Hab.
  split; [exact (symmetric_factor_l a b Hb Hab) | exact Hab].
Qed.

(** What [x.Add(y).Sub(y)] is when nothing overflows: [x] with both fields
    multiplied by 1 (equal denominators), by [y.D] (when [x.D] is 1) or by
    the square of [y.D]. *)
Lemma Sub_Add_scaled x y :
  D y <> 0 ->
  Int.symmetric (N x * D y * D y) -> Int.symmetric (D x * D y * D y) ->
  exists k,
    k <> 0 /\ (0 < k \/ D x <> 0) /\
    Int.symmetric (k * N x) /\ Int.symmetric (k * D x) /\
    Sub (Add x y) y = mkF (k * N x) (k * D x).
Proof.
  intros Hy Hn Hd.
  destruct (symmetric_square_factor _ _ Hy Hn) as [Hn0 Hn1].
  destruct (symmetric_square_factor _ _ Hy Hd) as [Hd0 Hd1].
  unfold Add, Sub, cross.
  destruct (Z.eqb_spec (D x) (D y)) as [E | E]; simpl.
  - (* equal denominators *)
    destruct (Z.eqb_spec (D x) (D y)); [| contradiction]. simpl.
    exists 1. rewrite !Z.mul_1_l.
    repeat split; try assumption; try lia.
    f_equal. unfold Int.sub, Int.add.
    rewrite <- (wrap_id (N x)) at 2 by (apply symmetric_in_range; assumption).
    wrap_ring.
  - assert (Hm : Int.mul (D x) (D y) = D x * D y)
      by (apply wrap_id, symmetric_in_range; assumption).
    rewrite !Hm.
    destruct (Z.eqb_spec (D x * D y) (D y)) as [E1 | E1]; simpl.
    + (* x.D is 1 *)
      assert (Hx1 : D x = 1) by nia.
      exists (D y). rewrite Hx1 in *. rewrite Z.mul_1_l in *.
      repeat split; try assumption; try lia.
      * rewrite Z.mul_comm. assumption.
      * rewrite Z.mul_1_r. assumption.
      * rewrite Z.mul_1_r. f_equal. unfold Int.sub, Int.add, Int.mul.
        rewrite <- (wrap_id (D y * N x)).
        -- wrap_ring.
        -- apply symmetric_in_range. rewrite Z.mul_comm. assumption.
    + (* the general case *)
      exists (D y * D y).
      assert (Hn2 : Int.symmetric (D y * D y * N x)).
      { replace (D y * D y * N x) with (N x * D y * D y) by ring. assumption. }
      assert (Hd2 : Int.symmetric (D y * D y * D x)).
      { replace (D y * D y * D x) with (D x * D y * D y) by ring. assumption. }
      repeat split; try assumption; try nia.
      unfold Int.sub, Int.add, Int.mul.
      f_equal.
      * rewrite <- (wrap_id (D y * D y * N x))
          by (apply symmetric_in_range; assumption).
        wrap_ring.
      * rewrite <- (wrap_id (D y * D y * D x))
          by (apply symmetric_in_range; assumption).
        wrap_ring.
Qed.

(** C5, as the code has it.  When [y.D] is not zero and the products
    [x.N*y.D*y.D] and [x.D*y.D*y.D] do not exceed the maximum machine
    integer in magnitude, [x.Add(y).Sub(y).Reduce()] is [x.Reduce()],
    both panicking on [x = 0/0]. *)
Theorem Add_Sub_roundtrip x y :
  D y <> 0 ->
  Int.symmetric (N x * D y * D y) -> Int.symmetric (D x * D y * D y) ->
  Reduce (Sub (Add x y) y) = Reduce x.
Proof.
  intros Hy Hn Hd.
  destruct (Sub_Add_scaled x y Hy Hn Hd) as (k & Hk & Hkd & Hsn & Hsd & ->).
  rewrite Reduce_scale by assumption. destruct x; reflexivity.
Qed.

Lemma Add_Sub_roundtrip_witness :
  Reduce (Sub (Add (mkF 1 2) (mkF 2 3)) (mkF 2 3)) = Reduce (mkF 1 2).
Proof.
  apply Add_Sub_roundtrip.
  - simpl. lia.
  - vm_compute. discriminate.
  - vm_compute. discriminate.
Defined.

(** A zero denominator in [y] makes the round trip lose [x], and a
    numerator that overflows breaks it although no denominator does. *)
Lemma Add_Sub_roundtrip_counterexample :
  Reduce (Sub (Add (mkF 1 2) (mkF 1 0)) (mkF 1 0)) <> Reduce (mkF 1 2) /\
  Reduce (Sub (Add (mkF 4611686018427387904 1) (mkF 0 2)) (mkF 0 2))
    <> Reduce (mkF 4611686018427387904 1).
Proof.
  assert (E1 : Reduce (Sub (Add (mkF 1 2) (mkF 1 0)) (mkF 1 0)) = Ok (mkF 1 0))
    by reflexivity.
  assert (E2 : Reduce (mkF 1 2) = Ok (mkF 1 2)) by reflexivity.
  assert (E3 : Reduce (Sub (Add (mkF 4611686018427387904 1) (mkF 0 2)) (mkF 0 2))
               = Ok (mkF (-4611686018427387904) 1)) by reflexivity.
  assert (E4 : Reduce (mkF 4611686018427387904 1)
               = Ok (mkF 4611686018427387904 1)) by reflexivity.
  rewrite E1, E2, E3, E4. split; discriminate.
Qed.

(** * Further properties of the code *)

(** ** The integer primitives *)

Lemma abs_wrap v : Int.in_range v -> abs v = Int.wrap (Z.abs v).
Proof.
  intros H. unfold abs. destruct (Z.ltb_spec v 0).
  - unfold Int.neg. f_equal. lia.
  - rewrite Z.abs_eq by assumption. symmetry. apply wrap_id. assumption.
Qed.

Lemma GCD_wrap x y :
  Int.in_range x -> Int.in_range y -> GCD x y = Int.wrap (Z.gcd x y).
Proof.
  intros Hx Hy. destruct (GCD_last x y) as (r & Hr & Hg & Hin).
  rewrite Hr, <- Hg. apply abs_wrap. auto.
Qed.

Lemma gcd_above_max_value x y :
  Int.in_range x -> Int.in_range y -> Int.max_int < Z.gcd x y ->
  Z.gcd x y = - Int.min_int.
Proof.
  intros Hx Hy Hgt.
  destruct (gcd_above_max x y Hx Hy Hgt) as (_ & _ & Hnz).
  pose proof (gcd_le_abs x y Hnz) as Hb.
  revert Hx Hy Hgt Hb. generalize (Z.gcd x y). int_consts. lia.
Qed.

(** X1. On machine integers [GCD] is the mathematical gcd reduced to the
    machine range: it is the gcd itself whenever the gcd is representable,
    and the minimum integer in the remaining case of a gcd of [2^(w-1)]. *)
Theorem GCD_machine_value x y :
  Int.in_range x -> Int.in_range y ->
  GCD x y = Int.wrap (Z.gcd x y) /\
  (Z.gcd x y <= Int.max_int -> GCD x y = Z.gcd x y) /\
  (Int.max_int < Z.gcd x y -> GCD x y = Int.min_int).
Proof.
  intros Hx Hy. split; [apply GCD_wrap; assumption | split].
  - intros Hle. apply GCD_exact; assumption.
  - intros Hgt. rewrite GCD_wrap by assumption.
    rewrite (gcd_above_max_value x y Hx Hy Hgt). reflexivity.
Qed.

Lemma GCD_machine_value_witness :
  GCD (-12) 18 = Int.wrap (Z.gcd (-12) 18) /\ GCD (-12) 18 = 6.
Proof.
  assert (H1 : Int.in_range (-12)) by (vm_compute; split; discriminate).
  assert (H2 : Int.in_range 18) by (vm_compute; split; discriminate).
  destruct (GCD_machine_value (-12) 18 H1 H2) as (E & Hle & _).
  split; [exact E |].
  rewrite Hle; [reflexivity | vm_compute; discriminate].
Defined.

(** X2. The result of [GCD] is negative only through the wrap-around of
    [abs]: exactly when both operands are 0 or the minimum integer and not
    both are 0.  On every other pair of machine integers it is positive,
    or 0 for the pair (0, 0). *)
Theorem GCD_negative_iff x y :
  Int.in_range x -> Int.in_range y ->
  (GCD x y < 0 <->
   (x = Int.min_int \/ x = 0) /\ (y = Int.min_int \/ y = 0) /\
   (x <> 0 \/ y <> 0)).
Proof.
  intros Hx Hy.
  pose proof (Z.gcd_nonneg x y) as H0.
  destruct (Z_lt_le_dec Int.max_int (Z.gcd x y)) as [Hbig | Hsmall].
  - rewrite GCD_wrap, (gcd_above_max_value x y Hx Hy Hbig) by assumption.
    split.
    + intros _. apply gcd_above_max; assumption.
    + intros _. reflexivity.
  - rewrite (GCD_exact x y Hx Hy Hsmall). split; [lia |].
    intros ([-> | ->] & [-> | ->] & Hnz); vm_compute in Hsmall;
      try (exfalso; apply Hsmall; reflexivity).
    destruct Hnz as [Hnz | Hnz]; contradiction.
Qed.

Lemma GCD_negative_iff_witness :
  GCD Int.min_int 0 < 0 /\ ~ GCD 7 0 < 0.
Proof.
  assert (Hm : Int.in_range Int.min_int) by (vm_compute; split; discriminate).
  assert (H0 : Int.in_range 0) by (vm_compute; split; discriminate).
  assert (H7 : Int.in_range 7) by (vm_compute; split; discriminate).
  split.
  - apply (GCD_negative_iff Int.min_int 0 Hm H0).
    split; [left; reflexivity | split; [right; reflexivity | left; discriminate]].
  - intros H. apply (GCD_negative_iff 7 0 H7 H0) in H.
    destruct H as ([H | H] & _); discriminate H.
Defined.

(** X3. [GCD] is commutative on machine integers, the wrap-around case
    included. *)
Theorem GCD_commutative x y :
  Int.in_range x -> Int.in_range y -> GCD x y = GCD y x.
Proof.
  intros Hx Hy.
  rewrite (GCD_wrap x y Hx Hy), (GCD_wrap y x Hy Hx), Z.gcd_comm.
  reflexivity.
Qed.

Lemma GCD_commutative_witness : GCD (-12) 18 = GCD 18 (-12).
Proof.
  apply GCD_commutative; vm_compute; split; discriminate.
Defined.

(** X4. The result of [GCD] divides both operands, and every common
    divisor of the operands divides it. *)
Theorem GCD_greatest_common_divisor x y :
  Int.in_range x -> Int.in_range y ->
  (GCD x y | x) /\ (GCD x y | y) /\
  (forall c, (c | x) -> (c | y) -> (c | GCD x y)).
Proof.
  intros Hx Hy.
  destruct (Z_lt_le_dec Int.max_int (Z.gcd x y)) as [Hbig | Hsmall].
  - pose proof (gcd_above_max_value x y Hx Hy Hbig) as Eg.
    rewrite GCD_wrap, Eg by assumption.
    change (Int.wrap (- Int.min_int)) with Int.min_int.
    destruct (gcd_above_max x y Hx Hy Hbig) as (Ex & Ey & _).
    split; [| split].
    + destruct Ex as [-> | ->]; [apply Z.divide_refl | apply Z.divide_0_r].
    + destruct Ey as [-> | ->]; [apply Z.divide_refl | apply Z.divide_0_r].
    + intros c Hcx Hcy.
      pose proof (Z.gcd_greatest x y c Hcx Hcy) as Hc.
      rewrite Eg in Hc. apply Z.divide_opp_r in Hc. exact Hc.
  - rewrite (GCD_exact x y Hx Hy Hsmall).
    split; [apply Z.gcd_divide_l | split; [apply Z.gcd_divide_r |]].
    intros c. apply Z.gcd_greatest.
Qed.

Lemma GCD_greatest_common_divisor_witness :
  (GCD (-12) 18 | -12) /\ (GCD (-12) 18 | 18) /\ (3 | GCD (-12) 18).
Proof.
  assert (H1 : Int.in_range (-12)) by (vm_compute; split; discriminate).
  assert (H2 : Int.in_range 18) by (vm_compute; split; discriminate).
  destruct (GCD_greatest_common_divisor (-12) 18 H1 H2) as (Hl & Hr & Hg).
  split; [exact Hl | split; [exact Hr |]].
  apply Hg; [exists (-4); reflexivity | exists 6; reflexivity].
Defined.

Lemma LCM_in_range x y l :
  Int.in_range x -> LCM x y = Ok l -> Int.in_range l.
Proof.
  intros Hx Hl. unfold LCM in Hl. destruct ((x =? y) || (x =? Int.neg y)).
  - injection Hl as <-. exact Hx.
  - destruct (Int.div x (GCD x y)) as [q | e]; simpl in Hl; [| discriminate].
    injection Hl as <-. apply abs_in_range, wrap_range.
Qed.

(** X5. [LCM] never panics on machine integers: its division by the gcd
    is reached only when the operands differ, and then the gcd is not 0. *)
Theorem LCM_never_panics x y :
  Int.in_range x -> Int.in_range y ->
  exists l, LCM x y = Ok l /\ Int.in_range l.
Proof.
  intros Hx Hy. unfold LCM, Int.div.
  destruct (Z.eqb_spec x y) as [E | E]; simpl; [eauto |].
  destruct (x =? Int.neg y); simpl; [eauto |].
  destruct (Z.eqb_spec (GCD x y) 0) as [G | G]; simpl.
  - apply GCD_zero_iff in G; [| assumption ..]. lia.
  - eexists. split; [reflexivity | apply abs_in_range, wrap_range].
Qed.

Lemma LCM_never_panics_witness :
  exists l, LCM 0 Int.min_int = Ok l /\ Int.in_range l.
Proof.
  apply LCM_never_panics; vm_compute; split; discriminate.
Defined.

Lemma quot_gcd_mul a b : (a ÷ Z.gcd a b) * b = a * (b / Z.gcd a b).
Proof.
  destruct (Z.eq_dec (Z.gcd a b) 0) as [E | E].
  - rewrite E. apply Z.gcd_eq_0 in E. destruct E as [-> ->]. reflexivity.
  - pose proof (quot_gcd_l a b) as Ha.
    destruct (Z.gcd_divide_r a b) as [k Hk].
    revert E Ha Hk. generalize (Z.gcd a b) (a ÷ Z.gcd a b).
    intros g q E Ha Hk. subst a b.
    rewrite Z.div_mul by assumption. ring.
Qed.

(** Without overflow [LCM] computes [|x / gcd * y|] over the integers. *)
Lemma LCM_formula x y :
  Int.symmetric x -> Int.symmetric y -> Int.symmetric (x * y) ->
  Z.abs x <> Z.abs y ->
  LCM x y = Ok (Z.abs (x ÷ Z.gcd x y * y)).
Proof.
  intros Hx Hy Hxy Hne.
  unfold LCM. rewrite (neg_symmetric y Hy).
  destruct (Z.eqb_spec x y); [lia |].
  destruct (Z.eqb_spec x (- y)); [lia |]. simpl.
  rewrite (GCD_symmetric x y Hx Hy).
  pose proof (Z.gcd_nonneg x y) as Hg0.
  assert (Hg : Z.gcd x y <> 0).
  { intros E. apply Z.gcd_eq_0 in E. lia. }
  rewrite Int_div_exact by (lia || apply symmetric_in_range; assumption).
  simpl. f_equal.
  pose proof (quot_gcd_l x y) as Hq.
  assert (Hs : Int.symmetric (x ÷ Z.gcd x y * y)).
  { revert Hq Hg Hg0. generalize (Z.gcd x y) (x ÷ Z.gcd x y).
    intros g q Hq Hg Hg0.
    assert (E : x * y = g * (q * y)) by (rewrite Hq; ring).
    unfold Int.symmetric in *. rewrite E in Hxy.
    rewrite (Z.abs_mul g) in Hxy. nia. }
  unfold Int.mul. rewrite wrap_id by (apply symmetric_in_range; assumption).
  apply abs_symmetric. assumption.
Qed.

(** X6. When the operands differ in magnitude and their product does not
    overflow, [LCM] is the mathematical least common multiple, a zero
    operand included. *)
Theorem LCM_is_lcm x y :
  Int.symmetric x -> Int.symmetric y -> Int.symmetric (x * y) ->
  Z.abs x <> Z.abs y ->
  LCM x y = Ok (Z.lcm x y).
Proof.
  intros Hx Hy Hxy Hne.
  rewrite LCM_formula by assumption.
  unfold Z.lcm. rewrite quot_gcd_mul. reflexivity.
Qed.

Lemma LCM_is_lcm_witness : LCM (-4) 6 = Ok (Z.lcm (-4) 6).
Proof.
  apply LCM_is_lcm; try (vm_compute; discriminate).
Defined.

(** ** Lowest terms *)

(** X7. On machine integers [Reduce] panics exactly on 0/0, where the gcd
    it divides by is 0; on every other fraction it returns a fraction of
    machine integers. *)
Theorem Reduce_panics_only_on_zero x :
  wf x ->
  (Reduce x = Panic DivideByZero <-> N x = 0 /\ D x = 0) /\
  (N x <> 0 \/ D x <> 0 -> exists r, Reduce x = Ok r /\ wf r).
Proof.
  intros Hwf. split; [apply Reduce_panics_iff; assumption |].
  intros Hnz. destruct (Reduce x) as [r | e] eqn:Hr.
  - exists r. split; [reflexivity | exact (Reduce_wf x r Hr)].
  - rewrite panic_unique in Hr. apply Reduce_panics_iff in Hr; [lia | assumption].
Qed.

Lemma Reduce_panics_only_on_zero_witness :
  Reduce (mkF 0 0) = Panic DivideByZero /\
  exists r, Reduce (mkF 0 (-5)) = Ok r /\ wf r.
Proof.
  assert (W0 : wf (mkF 0 0)) by (split; vm_compute; split; discriminate).
  assert (W5 : wf (mkF 0 (-5))) by (split; vm_compute; split; discriminate).
  split.
  - apply (proj1 (Reduce_panics_only_on_zero (mkF 0 0) W0)). split; reflexivity.
  - apply (proj2 (Reduce_panics_only_on_zero (mkF 0 (-5)) W5)).
    right. simpl. discriminate.
Defined.

(** X8. What [Reduce] returns is in lowest terms with a non-negative
    denominator: the fields are coprime and the denominator is not
    negative, for every fraction of machine integers but an odd numerator
    over the minimum integer. *)
Theorem Reduce_lowest_terms x r :
  wf x ->
  (D x = Int.min_int -> Z.even (N x) = true) ->
  Reduce x = Ok r ->
  0 <= D r /\ Z.gcd (N r) (D r) = 1.
Proof.
  intros Hwf Hx Hr.
  assert (Hm : D r <> Int.min_int).
  { intros E. destruct (Reduce_denominator_min x r Hwf Hr E) as [Ed Ho].
    rewrite <- Z.negb_even, (Hx Ed) in Ho. discriminate Ho. }
  destruct (Reduce_result x r Hwf Hr Hm) as (_ & Hpos & Hco).
  split; assumption.
Qed.

Lemma Reduce_lowest_terms_witness :
  0 <= D (mkF (-2) 3) /\ Z.gcd (N (mkF (-2) 3)) (D (mkF (-2) 3)) = 1.
Proof.
  apply (Reduce_lowest_terms (mkF 4 (-6)) (mkF (-2) 3)).
  - split; vm_compute; split; discriminate.
  - simpl. intros H. discriminate H.
  - reflexivity.
Defined.

(** X9. The fractions [Reduce] leaves unchanged are the ones in lowest
    terms with a non-negative denominator. *)
Theorem Reduce_fixed_points x :
  wf x -> D x <> Int.min_int ->
  (Reduce x = Ok x <-> 0 <= D x /\ Z.gcd (N x) (D x) = 1).
Proof.
  intros Hwf Hm. split.
  - intros Hr. destruct (Reduce_result x x Hwf Hr Hm) as (_ & Hpos & Hco).
    split; assumption.
  - intros [Hpos Hco]. apply Reduce_lowest; assumption.
Qed.

Lemma Reduce_fixed_points_witness :
  Reduce (mkF (-2) 3) = Ok (mkF (-2) 3).
Proof.
  apply (Reduce_fixed_points (mkF (-2) 3)).
  - split; vm_compute; split; discriminate.
  - simpl. discriminate.
  - split; [simpl; lia | reflexivity].
Defined.

(** ** Rational values *)

Lemma ratio_eq_cross a b c d :
  b <> 0 -> d <> 0 ->
  ((inject_Z a / inject_Z b == inject_Z c / inject_Z d)%Q <-> a * d = c * b).
Proof.
  intros Hb Hd.
  unfold Qeq, Qdiv, Qmult, Qinv, inject_Z.
  destruct b as [| p | p], d as [| q | q]; try contradiction; simpl;
    rewrite ?Pos2Z.inj_mul; lia.
Qed.

Lemma lowest_props a b :
  b <> 0 ->
  0 < D (lowest a b) /\
  Z.gcd (N (lowest a b)) (D (lowest a b)) = 1 /\
  N (lowest a b) * b = a * D (lowest a b).
Proof.
  intros Hb. unfold lowest. cbv zeta.
  pose proof (Z.gcd_nonneg a b) as Hg0.
  assert (Hg : Z.gcd a b <> 0).
  { intros E. apply Z.gcd_eq_0 in E. lia. }
  pose proof (gcd_quot_coprime a b Hg) as Hco.
  pose proof (quot_gcd_l a b) as Ha.
  pose proof (quot_gcd_l b a) as Hb'. rewrite (Z.gcd_comm b a) in Hb'.
  revert Hg0 Hg Hco Ha Hb'.
  generalize (Z.gcd a b) (a ÷ Z.gcd a b) (b ÷ Z.gcd a b).
  intros g a' b' Hg0 Hg Hco Ha Hb'.
  assert (Hb0 : b' <> 0) by nia.
  subst a b.
  destruct (Z.ltb_spec b' 0); simpl.
  - rewrite Z.gcd_opp_l, Z.gcd_opp_r.
    split; [lia | split; [assumption | ring]].
  - split; [lia | split; [assumption | ring]].
Qed.

(** A rational has one representation in lowest terms with a positive
    denominator. *)
Lemma lowest_terms_unique n1 d1 n2 d2 :
  0 < d1 -> 0 < d2 -> Z.gcd n1 d1 = 1 -> Z.gcd n2 d2 = 1 ->
  n1 * d2 = n2 * d1 -> n1 = n2 /\ d1 = d2.
Proof.
  intros H1 H2 G1 G2 E.
  assert (D12 : (d1 | d2)).
  { apply (Z.gauss d1 n1 d2).
    - exists n2. lia.
    - rewrite Z.gcd_comm. assumption. }
  assert (D21 : (d2 | d1)).
  { apply (Z.gauss d2 n2 d1).
    - exists n1. lia.
    - rewrite Z.gcd_comm. assumption. }
  assert (Ed : d1 = d2) by (apply Z.divide_antisym_nonneg; assumption || lia).
  split; [| exact Ed]. subst d2. nia.
Qed.

Lemma lowest_cross a b c d :
  b <> 0 -> d <> 0 -> a * d = c * b -> lowest a b = lowest c d.
Proof.
  intros Hb Hd E.
  destruct (lowest_props a b Hb) as (P1 & G1 & C1).
  destruct (lowest_props c d Hd) as (P2 & G2 & C2).
  destruct (lowest a b) as [n1 d1], (lowest c d) as [n2 d2]. simpl in *.
  assert (X : n1 * d2 = n2 * d1).
  { assert (K : (n1 * d2) * (b * d) = (n2 * d1) * (b * d)).
    { transitivity ((n1 * b) * (d2 * d)); [ring |].
      rewrite C1. transitivity ((a * d) * (d1 * d2)); [ring |].
      rewrite E. transitivity ((n2 * d) * (b * d1)); [rewrite C2; ring | ring]. }
    apply Z.mul_cancel_r in K; [exact K | nia]. }
  destruct (lowest_terms_unique n1 d1 n2 d2 P1 P2 G1 G2 X) as [-> ->].
  reflexivity.
Qed.

(** X10. [Reduce] keeps the rational value: when the fields of [x] are
    representable together with their negations and the denominator is not
    0, the reduced fraction stands for the same rational as [x]. *)
Theorem Reduce_preserves_value x r :
  Int.symmetric (N x) -> Int.symmetric (D x) -> D x <> 0 ->
  Reduce x = Ok r ->
  (ratio r == ratio x)%Q /\ 0 < D r.
Proof.
  intros Hn Hd Hd0 Hr. destruct x as [n d]. simpl in *.
  rewrite Reduce_symmetric in Hr by (assumption || right; assumption).
  injection Hr as <-.
  destruct (lowest_props n d Hd0) as (P & _ & C).
  split; [| exact P].
  unfold ratio. simpl. apply ratio_eq_cross; [lia | assumption | exact C].
Qed.

Lemma Reduce_preserves_value_witness :
  (ratio (mkF (-2) 3) == ratio (mkF 4 (-6)))%Q /\ 0 < D (mkF (-2) 3).
Proof.
  apply (Reduce_preserves_value (mkF 4 (-6)) (mkF (-2) 3)).
  - vm_compute. discriminate.
  - vm_compute. discriminate.
  - simpl. discriminate.
  - reflexivity.
Defined.

(** X11. [Reduce] gives a canonical form: two fractions with nonzero
    denominators (fields representable together with their negations)
    stand for the same rational exactly when they reduce to the same
    fraction. *)
Theorem Reduce_canonical x y :
  Int.symmetric (N x) -> Int.symmetric (D x) ->
  Int.symmetric (N y) -> Int.symmetric (D y) ->
  D x <> 0 -> D y <> 0 ->
  ((ratio x == ratio y)%Q <-> Reduce x = Reduce y).
Proof.
  intros Hnx Hdx Hny Hdy Hx0 Hy0.
  destruct x as [a b], y as [c d]. simpl in *.
  rewrite !Reduce_symmetric by (assumption || right; assumption).
  unfold ratio. simpl. rewrite ratio_eq_cross by assumption.
  split.
  - intros E. f_equal. apply lowest_cross; assumption.
  - intros E. injection E as E'.
    destruct (lowest_props a b Hx0) as (P1 & _ & C1).
    destruct (lowest_props c d Hy0) as (P2 & _ & C2).
    rewrite E' in C1.
    assert (K : (a * d) * D (lowest c d) = (c * b) * D (lowest c d)).
    { transitivity ((a * D (lowest c d)) * d); [ring |].
      rewrite <- C1. transitivity ((N (lowest c d) * d) * b); [ring |].
      rewrite C2. ring. }
    apply Z.mul_cancel_r in K; [exact K | lia].
Qed.

Lemma Reduce_canonical_witness :
  Reduce (mkF 4 (-6)) = Reduce (mkF (-10) 15).
Proof.
  apply (Reduce_canonical (mkF 4 (-6)) (mkF (-10) 15));
    try (vm_compute; discriminate).
  reflexivity.
Defined.

Lemma inject_Z_nonzero d : d <> 0 -> ~ (inject_Z d == 0)%Q.
Proof.
  intros Hd E. apply Hd. apply (proj1 (inject_Z_injective d 0)). exact E.
Qed.

(** ** The arithmetic operations *)

(** X12. [Add] returns the sum: with nonzero denominators, and a resulting
    numerator and denominator that are representable, the result stands
    for the sum of the rationals of [x] and [y]. *)
Theorem Add_value x y :
  D x <> 0 -> D y <> 0 ->
  (D x = D y -> Int.in_range (N x + N y)) ->
  (D x <> D y ->
   Int.in_range (N x * D y + N y * D x) /\ Int.in_range (D x * D y)) ->
  (ratio (Add x y) == ratio x + ratio y)%Q.
Proof.
  intros Hx Hy Heq Hne. unfold Add, cross, ratio.
  destruct (Z.eqb_spec (D x) (D y)) as [E | E]; simpl.
  - unfold Int.add. rewrite wrap_id by auto.
    rewrite <- E, inject_Z_plus. field. apply inject_Z_nonzero; assumption.
  - destruct (Hne E) as [Hn Hd].
    unfold Int.mul at 3. rewrite (wrap_id (D x * D y)) by assumption.
    assert (En : Int.add (Int.mul (N x) (D y)) (Int.mul (N y) (D x))
                 = N x * D y + N y * D x).
    { unfold Int.add, Int.mul.
      rewrite <- (wrap_id (N x * D y + N y * D x)) by assumption.
      wrap_ring. }
    rewrite En, inject_Z_plus, !inject_Z_mult. field.
    split; apply inject_Z_nonzero; assumption.
Qed.

Lemma Add_value_witness :
  (ratio (Add (mkF 1 2) (mkF 2 (-3))) == ratio (mkF 1 2) + ratio (mkF 2 (-3)))%Q.
Proof.
  apply Add_value.
  - simpl. discriminate.
  - simpl. discriminate.
  - simpl. intros H. discriminate H.
  - intros _. split; vm_compute; split; discriminate.
Defined.

(** X13. [Sub] returns the difference, under the same conditions as
    [Add]. *)
Theorem Sub_value x y :
  D x <> 0 -> D y <> 0 ->
  (D x = D y -> Int.in_range (N x - N y)) ->
  (D x <> D y ->
   Int.in_range (N x * D y - N y * D x) /\ Int.in_range (D x * D y)) ->
  (ratio (Sub x y) == ratio x - ratio y)%Q.
Proof.
  intros Hx Hy Heq Hne. unfold Sub, cross, ratio.
  destruct (Z.eqb_spec (D x) (D y)) as [E | E]; simpl.
  - unfold Int.sub. rewrite wrap_id by auto.
    rewrite <- E. unfold Z.sub. rewrite inject_Z_plus, inject_Z_opp.
    field. apply inject_Z_nonzero; assumption.
  - destruct (Hne E) as [Hn Hd].
    unfold Int.mul at 3. rewrite (wrap_id (D x * D y)) by assumption.
    assert (En : Int.sub (Int.mul (N x) (D y)) (Int.mul (N y) (D x))
                 = N x * D y - N y * D x).
    { unfold Int.sub, Int.mul.
      rewrite <- (wrap_id (N x * D y - N y * D x)) by assumption.
      wrap_ring. }
    rewrite En. unfold Z.sub.
    rewrite inject_Z_plus, inject_Z_opp, !inject_Z_mult. field.
    split; apply inject_Z_nonzero; assumption.
Qed.

Lemma Sub_value_witness :
  (ratio (Sub (mkF 1 2) (mkF 2 (-3))) == ratio (mkF 1 2) - ratio (mkF 2 (-3)))%Q.
Proof.
  apply Sub_value.
  - simpl. discriminate.
  - simpl. discriminate.
  - simpl. intros H. discriminate H.
  - intros _. split; vm_compute; split; discriminate.
Defined.

(** X14. [Mul] returns the product when neither denominator is zero and
    the products of the numerators and of the denominators are
    representable. *)
Theorem Mul_value x y :
  D x <> 0 -> D y <> 0 ->
  Int.in_range (N x * N y) -> Int.in_range (D x * D y) ->
  (ratio (Mul x y) == ratio x * ratio y)%Q.
Proof.
  intros Hx Hy Hn Hd. unfold Mul, ratio, Int.mul. simpl.
  rewrite !wrap_id by assumption. rewrite !inject_Z_mult.
  field. split; apply inject_Z_nonzero; assumption.
Qed.

Lemma Mul_value_witness :
  (ratio (Mul (mkF 4 3) (mkF 3 (-2))) == ratio (mkF 4 3) * ratio (mkF 3 (-2)))%Q.
Proof.
  apply Mul_value; try (simpl; discriminate);
    vm_compute; split; discriminate.
Defined.

Lemma Div_fields x y :
  Int.symmetric (N x * D y) -> Int.symmetric (D x * N y) ->
  exists s, (s = 1 \/ s = -1) /\
            Div x y = mkF (s * (N x * D y)) (s * (D x * N y)).
Proof.
  intros Hn Hd. unfold Div.
  destruct (Z.ltb_spec (N y) 0); simpl.
  - exists (-1). split; [right; reflexivity |].
    unfold Int.mul, Int.neg. f_equal.
    + rewrite <- (wrap_id (-1 * (N x * D y))).
      * wrap_ring.
      * apply symmetric_in_range. revert Hn. int_consts. lia.
    + rewrite <- (wrap_id (-1 * (D x * N y))).
      * wrap_ring.
      * apply symmetric_in_range. revert Hd. int_consts. lia.
  - exists 1. split; [left; reflexivity |].
    unfold Int.mul. rewrite !Z.mul_1_l.
    rewrite !wrap_id by (apply symmetric_in_range; assumption). reflexivity.
Qed.

(** X15. [Div] returns the quotient when the divisor is not zero (neither
    its numerator nor its denominator), [x.D] is not zero and the two
    cross products are representable together with their negations. *)
Theorem Div_value x y :
  D x <> 0 -> N y <> 0 -> D y <> 0 ->
  Int.symmetric (N x * D y) -> Int.symmetric (D x * N y) ->
  (ratio (Div x y) == ratio x / ratio y)%Q.
Proof.
  intros Hx Hny Hdy Hn Hd.
  destruct (Div_fields x y Hn Hd) as (s & Hs & ->).
  unfold ratio. simpl. rewrite !inject_Z_mult.
  assert (Hs0 : s <> 0) by lia.
  field. repeat split; apply inject_Z_nonzero; assumption.
Qed.

Lemma Div_value_witness :
  (ratio (Div (mkF 4 3) (mkF (-3) 2)) == ratio (mkF 4 3) / ratio (mkF (-3) 2))%Q.
Proof.
  apply Div_value; try (simpl; discriminate); vm_compute; discriminate.
Defined.

(** X16. [Add] is commutative on all fractions, whatever overflows: the
    fast path and the cross-multiplication are both symmetric in [x] and
    [y]. *)
Theorem Add_commutative x y : Add x y = Add y x.
Proof.
  unfold Add, cross. rewrite (Z.eqb_sym (D y) (D x)).
  destruct (Z.eqb_spec (D x) (D y)) as [E | E]; simpl.
  - unfold Int.add. rewrite E, Z.add_comm. reflexivity.
  - unfold Int.add, Int.mul.
    rewrite (Z.mul_comm (D y) (D x)), Z.add_comm. reflexivity.
Qed.

(** X17. [Mul] is commutative and associative on all fractions, whatever
    overflows, since multiplication modulo [2^w] is. *)
Theorem Mul_commutative_associative x y z :
  Mul x y = Mul y x /\ Mul (Mul x y) z = Mul x (Mul y z).
Proof.
  unfold Mul, Int.mul. simpl. split.
  - rewrite (Z.mul_comm (N y)), (Z.mul_comm (D y)). reflexivity.
  - rewrite !wrap_mul_l, !wrap_mul_r, !Z.mul_assoc. reflexivity.
Qed.

(** X18. Dividing is multiplying by the inverse: [x.Div(y)] and
    [x.Mul(y.Inv())] are the same fraction, field by field, for all
    operands. *)
Theorem Div_is_Mul_Inv x y : Div x y = Mul x (Inv y).
Proof.
  unfold Div, Mul, Inv. destruct (N y <? 0); reflexivity.
Qed.

(** X19. Dividing by [y] and multiplying by [y] again gives back [x] up to
    reduction, when [y] is not zero, [x.D] is not zero and the products
    [x.N*y.N*y.D] and [x.D*y.N*y.D] are representable together with their
    negations. *)
Theorem Div_Mul_roundtrip x y :
  D x <> 0 -> N y <> 0 -> D y <> 0 ->
  Int.symmetric (N x * N y * D y) -> Int.symmetric (D x * N y * D y) ->
  Reduce (Mul (Div x y) y) = Reduce x.
Proof.
  intros Hx Hny Hdy Hn Hd.
  assert (Hn1 : Int.symmetric (N x * D y)).
  { apply (symmetric_factor_l _ (N y) Hny).
    replace (N x * D y * N y) with (N x * N y * D y) by ring. assumption. }
  assert (Hd1 : Int.symmetric (D x * N y)).
  { apply (symmetric_factor_l _ (D y) Hdy). assumption. }
  destruct (Div_fields x y Hn1 Hd1) as (s & Hs & ->).
  assert (Hsn : Int.symmetric (s * (N y * D y) * N x)).
  { unfold Int.symmetric in *.
    replace (s * (N y * D y) * N x) with (s * (N x * N y * D y)) by ring.
    rewrite Z.abs_mul. replace (Z.abs s) with 1 by lia. lia. }
  assert (Hsd : Int.symmetric (s * (N y * D y) * D x)).
  { unfold Int.symmetric in *.
    replace (s * (N y * D y) * D x) with (s * (D x * N y * D y)) by ring.
    rewrite Z.abs_mul. replace (Z.abs s) with 1 by lia. lia. }
  assert (E : Mul (mkF (s * (N x * D y)) (s * (D x * N y))) y
              = mkF (s * (N y * D y) * N x) (s * (N y * D y) * D x)).
  { unfold Mul, Int.mul. simpl. f_equal.
    - rewrite <- (wrap_id (s * (N y * D y) * N x))
        by (apply symmetric_in_range; assumption).
      wrap_ring.
    - rewrite <- (wrap_id (s * (N y * D y) * D x))
        by (apply symmetric_in_range; assumption).
      wrap_ring. }
  rewrite E, Reduce_scale; try assumption.
  - destruct x; reflexivity.
  - nia.
  - right. assumption.
Qed.

Lemma Div_Mul_roundtrip_witness :
  Reduce (Mul (Div (mkF 4 3) (mkF (-3) 2)) (mkF (-3) 2)) = Reduce (mkF 4 3).
Proof.
  apply Div_Mul_roundtrip; try (simpl; discriminate); vm_compute; discriminate.
Defined.

(** X20. [Inv] undoes itself on a fraction of machine integers with a
    positive denominator, the minimum integer as numerator included. *)
Theorem Inv_involutive x :
  wf x -> 0 < D x -> Inv (Inv x) = x.
Proof.
  intros [Hn Hd] Hpos. destruct x as [n d]. simpl in *. unfold Inv. simpl.
  destruct (Z.ltb_spec n 0) as [Hneg | Hnn]; simpl.
  - assert (Ed : Int.neg d = - d).
    { apply wrap_id. revert Hd. int_consts. lia. }
    rewrite Ed. destruct (Z.ltb_spec (- d) 0); [| lia].
    f_equal; unfold Int.neg.
    + rewrite wrap_opp, Z.opp_involutive. apply wrap_id. assumption.
    + rewrite Z.opp_involutive. apply wrap_id. assumption.
  - destruct (Z.ltb_spec d 0); [lia | reflexivity].
Qed.

Lemma Inv_involutive_witness :
  Inv (Inv (mkF Int.min_int 5)) = mkF Int.min_int 5.
Proof.
  apply Inv_involutive.
  - split; vm_compute; split; discriminate.
  - simpl. lia.
Defined.

Lemma Abs_fields x : Abs x = mkF (abs (N x)) (abs (D x)).
Proof.
  unfold Abs, abs. destruct x as [n d]. simpl.
  destruct (n <? 0); simpl; destruct (d <? 0); reflexivity.
Qed.

Lemma abs_abs v : Int.in_range v -> abs (abs v) = abs v.
Proof.
  intros Hv. unfold abs at 2 3. destruct (Z.ltb_spec v 0) as [Hneg | Hnn].
  - destruct (Z.eq_dec v Int.min_int) as [-> | Hm]; [reflexivity |].
    rewrite (neg_in_range v Hv Hm). unfold abs.
    destruct (Z.ltb_spec (- v) 0); [lia | reflexivity].
  - unfold abs. destruct (Z.ltb_spec v 0); [lia | reflexivity].
Qed.

(** X21. [Abs] is idempotent on fractions of machine integers, and it
    returns the two magnitudes when the fields are representable together
    with their negations. *)
Theorem Abs_idempotent x :
  wf x ->
  Abs (Abs x) = Abs x /\
  (Int.symmetric (N x) -> Int.symmetric (D x) ->
   Abs x = mkF (Z.abs (N x)) (Z.abs (D x))).
Proof.
  intros [Hn Hd]. split.
  - rewrite (Abs_fields x), Abs_fields. simpl.
    rewrite !abs_abs by assumption. reflexivity.
  - intros Sn Sd. rewrite Abs_fields, !abs_symmetric by assumption.
    reflexivity.
Qed.

Lemma Abs_idempotent_witness :
  Abs (Abs (mkF (-3) Int.min_int)) = Abs (mkF (-3) Int.min_int) /\
  Abs (mkF (-3) (-4)) = mkF (Z.abs (-3)) (Z.abs (-4)).
Proof.
  assert (W1 : wf (mkF (-3) Int.min_int)) by (split; vm_compute; split; discriminate).
  assert (W2 : wf (mkF (-3) (-4))) by (split; vm_compute; split; discriminate).
  split.
  - apply (proj1 (Abs_idempotent _ W1)).
  - apply (proj2 (Abs_idempotent _ W2)); vm_compute; discriminate.
Defined.

(** ** Comparison and sign *)

(** X22. [Cmp] is antisymmetric on all fractions, whatever overflows:
    swapping the operands negates the result, which is -1, 0 or +1. *)
Theorem Cmp_antisymmetric x y :
  Cmp y x = - Cmp x y /\ (Cmp x y = -1 \/ Cmp x y = 0 \/ Cmp x y = 1).
Proof.
  rewrite !Cmp_cross, (Z.eqb_sym (D y) (D x)).
  destruct (D x =? D y); lia.
Qed.

Lemma ratio_compare_sgn a b c d :
  b <> 0 -> d <> 0 ->
  match Qcompare (inject_Z a / inject_Z b) (inject_Z c / inject_Z d) with
  | Lt => -1
  | Eq => 0
  | Gt => 1
  end = Z.sgn (a * d - c * b) * Z.sgn b * Z.sgn d.
Proof.
  intros Hb Hd.
  unfold Qcompare, Qdiv, Qmult, Qinv, inject_Z.
  destruct b as [| p | p], d as [| q | q]; try contradiction; simpl;
    rewrite ?Pos2Z.inj_mul;
    match goal with
    | |- context [?u ?= ?v] => destruct (Z.compare_spec u v)
    end; lia.
Qed.

(** X23. What [Cmp] returns in terms of the order of the rationals, for
    nonzero denominators and representable cross products: with equal
    denominators it is the true comparison multiplied by the sign of the
    denominator, with different denominators the true comparison
    multiplied by the signs of both.  So the result is inverted for equal
    negative denominators and for denominators of opposite signs, and
    right in the other cases. *)
Theorem Cmp_denominator_signs x y :
  D x <> 0 -> D y <> 0 ->
  Int.in_range (N x * D y) -> Int.in_range (N y * D x) ->
  Cmp x y =
  (if D x =? D y then Z.sgn (D x) else Z.sgn (D x) * Z.sgn (D y)) *
  match Qcompare (ratio x) (ratio y) with
  | Lt => -1
  | Eq => 0
  | Gt => 1
  end.
Proof.
  intros Hx Hy Hxy Hyx. unfold ratio.
  rewrite (ratio_compare_sgn _ _ _ _ Hx Hy), Cmp_cross.
  destruct (Z.eqb_spec (D x) (D y)) as [E | E].
  - rewrite <- E. rewrite <- Z.mul_sub_distr_r, Z.sgn_mul.
    destruct (Z.sgn_spec (D x)) as [[? ->] | [[? ->] | [? ->]]]; lia.
  - unfold Int.mul. rewrite !wrap_id by assumption.
    destruct (Z.sgn_spec (D x)) as [[? ->] | [[? ->] | [? ->]]];
      destruct (Z.sgn_spec (D y)) as [[? ->] | [[? ->] | [? ->]]]; lia.
Qed.

Lemma Cmp_denominator_signs_witness :
  Cmp (mkF 1 (-2)) (mkF 1 3) =
  (Z.sgn (-2) * Z.sgn 3) *
  match Qcompare (ratio (mkF 1 (-2))) (ratio (mkF 1 3)) with
  | Lt => -1
  | Eq => 0
  | Gt => 1
  end.
Proof.
  apply (Cmp_denominator_signs (mkF 1 (-2)) (mkF 1 3));
    try (simpl; discriminate); vm_compute; split; discriminate.
Defined.

(** X24. [IsNeg] tells whether exactly one of the two fields is negative.
    For a nonzero denominator and a nonzero numerator that is the sign of
    the rational; a zero numerator over a negative denominator is
    reported negative as well. *)
Theorem IsNeg_sign_bits x :
  IsNeg x = xorb (N x <? 0) (D x <? 0) /\
  (N x <> 0 -> D x <> 0 -> (IsNeg x = true <-> (ratio x < 0)%Q)) /\
  (N x = 0 -> D x < 0 -> IsNeg x = true).
Proof.
  assert (E : IsNeg x = xorb (N x <? 0) (D x <? 0)).
  { unfold IsNeg, Int.xor.
    pose proof (Z.lxor_nonneg (N x) (D x)) as H.
    destruct (Z.ltb_spec (Z.lxor (N x) (D x)) 0),
             (Z.ltb_spec (N x) 0), (Z.ltb_spec (D x) 0);
      simpl; try reflexivity; lia. }
  split; [exact E | split].
  - intros Hn Hd. rewrite E. unfold ratio, Qlt, Qdiv, Qmult, Qinv, inject_Z.
    destruct (D x) as [| p | p]; [contradiction | |]; simpl;
      destruct (Z.ltb_spec (N x) 0); simpl; split; intros;
      try reflexivity; try lia; try discriminate.
  - intros Hn Hd. rewrite E, Hn. simpl.
    destruct (Z.ltb_spec (D x) 0); [reflexivity | lia].
Qed.

Lemma IsNeg_sign_bits_witness :
  (IsNeg (mkF 3 (-4)) = true <-> (ratio (mkF 3 (-4)) < 0)%Q) /\
  IsNeg (mkF 0 (-1)) = true.
Proof.
  split.
  - apply (proj1 (proj2 (IsNeg_sign_bits (mkF 3 (-4))))); simpl; discriminate.
  - apply (proj2 (proj2 (IsNeg_sign_bits (mkF 0 (-1))))); simpl; [reflexivity | lia].
Defined.

(** ** Normalization of fractions in lowest terms *)

Lemma gcd_mul_lcm d e : Z.gcd d e * Z.lcm d e = Z.abs (d * e).
Proof.
  pose proof (Z.gcd_nonneg d e) as Hg0.
  destruct (Z.eq_dec (Z.gcd d e) 0) as [E | E].
  - rewrite E. apply Z.gcd_eq_0 in E. destruct E as [-> ->]. reflexivity.
  - unfold Z.lcm. destruct (Z.gcd_divide_r d e) as [k Hk].
    revert Hg0 E Hk. generalize (Z.gcd d e). intros g Hg0 E Hk. subst e.
    rewrite Z.div_mul by assumption.
    rewrite !Z.abs_mul, (Z.abs_eq g) by assumption. ring.
Qed.

(** The factor by which a positive denominator [d] is scaled to reach the
    least common multiple with [e]: it is positive and at most [|e|]. *)
Lemma lcm_factor d e :
  0 < d -> e <> 0 ->
  let q := Z.lcm d e / d in
  0 < q /\ q <= Z.abs e /\ q * d = Z.lcm d e /\ Z.lcm d e <= Z.abs (d * e).
Proof.
  intros Hd He q.
  pose proof (gcd_mul_lcm d e) as Hgl.
  pose proof (Z.gcd_nonneg d e) as Hg0.
  pose proof (Z.lcm_nonneg d e) as Hl0.
  assert (Hg : Z.gcd d e <> 0).
  { intros E. apply Z.gcd_eq_0 in E. lia. }
  destruct (Z.divide_lcm_l d e) as [k Hk].
  assert (Eq : q = k).
  { unfold q. rewrite Hk. apply Z.div_mul. lia. }
  rewrite Eq. rewrite Hk in *. rewrite Z.abs_mul in *.
  repeat split; nia.
Qed.

Lemma scale_to_lcm x e :
  0 < D x -> e <> 0 ->
  Int.symmetric (D x * e) -> Int.symmetric (N x * e) ->
  let q := Z.lcm (D x) e / D x in
  scale_to (Z.lcm (D x) e) x = Ok (mkF (q * N x) (q * D x)).
Proof.
  intros Hd He Hde Hne q.
  destruct (lcm_factor (D x) e Hd He) as (Hq0 & Hqe & Hql & Hle).
  fold q in Hq0, Hqe, Hql.
  unfold scale_to, Int.div.
  destruct (Z.eqb_spec (D x) 0); [lia |]. simpl.
  assert (Eq : Z.lcm (D x) e ÷ D x = q).
  { unfold q. apply Z.quot_div_nonneg; [apply Z.lcm_nonneg | assumption]. }
  rewrite Eq.
  assert (Rq : Int.in_range q).
  { unfold Int.symmetric in Hde. rewrite Z.abs_mul in Hde.
    revert Hde. int_consts. nia. }
  rewrite (wrap_id q Rq). unfold Int.mul.
  assert (Rn : Int.in_range (q * N x)).
  { apply symmetric_in_range. unfold Int.symmetric in *.
    rewrite Z.abs_mul in *. rewrite (Z.abs_eq q) by lia. nia. }
  rewrite (wrap_id _ Rn), Hql. reflexivity.
Qed.

Lemma ratio_scale q x :
  q <> 0 -> D x <> 0 -> (ratio (mkF (q * N x) (q * D x)) == ratio x)%Q.
Proof.
  intros Hq Hd. unfold ratio. simpl. apply ratio_eq_cross; [nia | assumption | ring].
Qed.

Lemma LCM_positive_lowest d e :
  0 < d -> e <> 0 -> d <> e ->
  Int.symmetric d -> Int.symmetric e -> Int.symmetric (d * e) ->
  LCM d e = Ok (Z.lcm d e).
Proof.
  intros Hd He Hne Sd Se Sde.
  destruct (Z.eq_dec d (- e)) as [E | E].
  - rewrite LCM_short_circuit by (right; rewrite neg_symmetric; assumption).
    f_equal. rewrite E, Z.lcm_opp_l, Z.lcm_diag. lia.
  - rewrite LCM_formula by (assumption || lia).
    unfold Z.lcm. rewrite quot_gcd_mul. reflexivity.
Qed.

(** X25. On a fraction [x] in lowest terms with a positive denominator,
    and with nothing overflowing, [NormTo] returns [x] scaled by a
    positive factor: the result has the least common multiple of the two
    denominators as denominator, a multiple of [y.D], and stands for the
    same rational as [x]. *)
Theorem NormTo_lowest_terms x y :
  0 < D x -> Z.gcd (N x) (D x) = 1 -> D y <> 0 ->
  Int.symmetric (D x * D y) -> Int.symmetric (N x * D y) ->
  exists r,
    NormTo x y = Ok r /\
    D r = Z.lcm (D x) (D y) /\ (D y | D r) /\ (ratio r == ratio x)%Q.
Proof.
  intros Hd Hco Hy Sde Sne.
  assert (Sd : Int.symmetric (D x)) by (apply (symmetric_factor_l _ (D y)); assumption).
  assert (Sn : Int.symmetric (N x)) by (apply (symmetric_factor_l _ (D y)); assumption).
  assert (Sy : Int.symmetric (D y)) by (apply (symmetric_factor_r (D x)); [lia | assumption]).
  unfold NormTo. destruct (Z.eqb_spec (D x) (D y)) as [E | E].
  - exists x. rewrite <- E, Z.lcm_diag, Z.abs_eq by lia.
    split; [reflexivity | split; [reflexivity | split]];
      [apply Z.divide_refl | reflexivity].
  - assert (Hr : Reduce x = Ok x).
    { apply Reduce_lowest;
        [split; apply symmetric_in_range; assumption | lia | assumption]. }
    rewrite Hr. simpl. rewrite LCM_positive_lowest by assumption. simpl.
    pose proof (scale_to_lcm x (D y) Hd Hy Sde Sne) as Hs. cbv zeta in Hs.
    destruct (lcm_factor (D x) (D y) Hd Hy) as (Hq0 & _ & Hql & _).
    fold (scale_to (Z.lcm (D x) (D y)) x). rewrite Hs.
    eexists. split; [reflexivity |]. simpl.
    split; [exact Hql | split].
    + rewrite Hql. apply Z.divide_lcm_r.
    + apply ratio_scale; lia.
Qed.

Lemma NormTo_lowest_terms_witness :
  exists r,
    NormTo (mkF 4 3) (mkF 3 2) = Ok r /\
    D r = Z.lcm 3 2 /\ (2 | D r) /\ (ratio r == ratio (mkF 4 3))%Q.
Proof.
  apply (NormTo_lowest_terms (mkF 4 3) (mkF 3 2)).
  - simpl. lia.
  - reflexivity.
  - simpl. discriminate.
  - vm_compute. discriminate.
  - vm_compute. discriminate.
Defined.

(** X26. The two fractions [Norm] returns share their denominator whenever
    the operands' denominators differ, for all operands; when they are
    equal the operands come back unchanged, so the denominators agree in
    every case. *)
Theorem Norm_common_denominator x y a b :
  Norm x y = Ok (a, b) ->
  D a = D b /\ (D x = D y -> a = x /\ b = y).
Proof.
  unfold Norm. destruct (Z.eqb_spec (D x) (D y)) as [E | E].
  - intros H. injection H as <- <-. auto.
  - destruct (Reduce x) as [rx | e]; simpl; [| discriminate].
    destruct (Reduce y) as [ry | e]; simpl; [| discriminate].
    destruct (LCM (D rx) (D ry)) as [m | e]; simpl; [| discriminate].
    destruct (Int.div _ (D x)) as [qx | e]; simpl; [| discriminate].
    destruct (Int.div _ (D y)) as [qy | e]; simpl; [| discriminate].
    intros H. injection H as <- <-. simpl. split; [reflexivity | contradiction].
Qed.

Lemma Norm_common_denominator_witness :
  D (mkF 8 6) = D (mkF 9 6).
Proof.
  apply (Norm_common_denominator (mkF 4 3) (mkF 3 2) (mkF 8 6) (mkF 9 6)).
  reflexivity.
Defined.

(** X27. On two fractions in lowest terms with positive denominators, and
    with nothing overflowing, [Norm] brings both to the least common
    multiple of the denominators, each standing for the same rational as
    before. *)
Theorem Norm_lowest_terms x y :
  0 < D x -> Z.gcd (N x) (D x) = 1 ->
  0 < D y -> Z.gcd (N y) (D y) = 1 ->
  Int.symmetric (D x * D y) ->
  Int.symmetric (N x * D y) -> Int.symmetric (N y * D x) ->
  exists a b,
    Norm x y = Ok (a, b) /\
    D a = Z.lcm (D x) (D y) /\ D b = Z.lcm (D x) (D y) /\
    (ratio a == ratio x)%Q /\ (ratio b == ratio y)%Q.
Proof.
  intros Hdx Hcx Hdy Hcy Sde Snx Sny.
  assert (Sdx : Int.symmetric (D x)) by (apply (symmetric_factor_l _ (D y)); [lia | assumption]).
  assert (Sdy : Int.symmetric (D y)) by (apply (symmetric_factor_r (D x)); [lia | assumption]).
  assert (Sn1 : Int.symmetric (N x)) by (apply (symmetric_factor_l _ (D y)); [lia | assumption]).
  assert (Sn2 : Int.symmetric (N y)) by (apply (symmetric_factor_l _ (D x)); [lia | assumption]).
  rewrite Norm_unfold. unfold Norm_spec.
  destruct (Z.eqb_spec (D x) (D y)) as [E | E].
  - exists x, y. rewrite <- E, Z.lcm_diag, Z.abs_eq by lia.
    split; [reflexivity | split; [reflexivity | split; [reflexivity | split]]];
      reflexivity.
  - assert (Hrx : Reduce x = Ok x).
    { apply Reduce_lowest;
        [split; apply symmetric_in_range; assumption | lia | assumption]. }
    assert (Hry : Reduce y = Ok y).
    { apply Reduce_lowest;
        [split; apply symmetric_in_range; assumption | lia | assumption]. }
    rewrite Hrx, Hry. simpl.
    rewrite LCM_positive_lowest by (assumption || lia). simpl.
    assert (Sde' : Int.symmetric (D y * D x)) by (rewrite Z.mul_comm; assumption).
    destruct (lcm_factor (D x) (D y) Hdx ltac:(lia)) as (Hq0 & _ & Hql & _).
    destruct (lcm_factor (D y) (D x) Hdy ltac:(lia)) as (Hp0 & _ & Hpl & _).
    rewrite (Z.lcm_comm (D y) (D x)) in Hp0, Hpl.
    assert (Hc : clamp (D x) (D y) (Z.lcm (D x) (D y)) = Z.lcm (D x) (D y)).
    { unfold clamp.
      destruct (Z.leb_spec (Z.lcm (D x) (D y)) (D x)); [nia |].
      destruct (Z.ltb_spec (Z.lcm (D x) (D y)) (D y)); [nia | reflexivity]. }
    rewrite Hc.
    pose proof (scale_to_lcm x (D y) Hdx ltac:(lia) Sde Snx) as Hsx.
    pose proof (scale_to_lcm y (D x) Hdy ltac:(lia) Sde' Sny) as Hsy.
    cbv zeta in Hsx, Hsy. rewrite (Z.lcm_comm (D y) (D x)) in Hsy.
    rewrite Hsx. simpl. rewrite Hsy. simpl.
    eexists. eexists. split; [reflexivity |]. simpl.
    split; [exact Hql | split; [exact Hpl | split]].
    + apply ratio_scale; lia.
    + apply ratio_scale; lia.
Qed.

Lemma Norm_lowest_terms_witness :
  exists a b,
    Norm (mkF 4 3) (mkF 3 2) = Ok (a, b) /\
    D a = Z.lcm 3 2 /\ D b = Z.lcm 3 2 /\
    (ratio a == ratio (mkF 4 3))%Q /\ (ratio b == ratio (mkF 3 2))%Q.
Proof.
  apply (Norm_lowest_terms (mkF 4 3) (mkF 3 2));
    try (simpl; lia); try reflexivity; vm_compute; discriminate.
Defined.

(** ** Splitting the text at the first slash *)

Lemma substring_whole s : substring 0 (String.length s) s = s.
Proof. induction s as [| c s IH]; simpl; [reflexivity | rewrite IH; reflexivity]. Qed.

Lemma substring_after s c t :
  substring (S (String.length s)) (String.length t) (s ++ String c t) = t.
Proof.
  induction s as [| a s IH]; simpl.
  - apply substring_whole.
  - exact IH.
Qed.

Lemma length_append_cons s c t :
  (String.length (s ++ String c t) - S (String.length s))%nat = String.length t.
Proof. induction s as [| a s IH]; simpl; [lia | exact IH]. Qed.

Lemma index_slash_first s t :
  index_slash s = None ->
  index_slash (s ++ String "/" t) = Some (String.length s).
Proof.
  induction s as [| c s IH]; simpl; [reflexivity |].
  destruct (Ascii.eqb c "/"); [discriminate |].
  destruct (index_slash s); [discriminate |].
  intros _. rewrite IH; reflexivity.
Qed.

(** X28. [Parse] splits at the first slash only.  For a text [s/t] whose
    part [s] has no slash: a numerator that [Atoi] rejects is the error
    returned, over the denominator 1, and [t] is not read; otherwise an
    empty [t] leaves the denominator 1 without an error, and any other
    [t], further slashes included, goes to [Atoi] as a whole and gives the
    denominator and the error. *)
Theorem Parse_first_slash s t :
  index_slash s = None ->
  Parse (s ++ String "/" t) =
  match strconv.Atoi s with
  | (n, Some e) => (mkF n 1, Some e)
  | (n, None) =>
      match t with
      | EmptyString => (mkF n 1, None)
      | _ => (mkF n (fst (strconv.Atoi t)), snd (strconv.Atoi t))
      end
  end.
Proof.
  intros H. unfold Parse.
  rewrite (index_slash_first s t H).
  rewrite substring_prefix, length_append_cons, substring_after.
  destruct (strconv.Atoi s) as [n [e |]]; [reflexivity |].
  destruct t as [| c t]; [reflexivity |].
  destruct (strconv.Atoi (String c t)) as [d e]. reflexivity.
Qed.

Lemma Parse_first_slash_witness :
  Parse "1/2/3" = (mkF 1 0, Some strconv.ErrSyntax) /\
  Parse "x/2" = (mkF 0 1, Some strconv.ErrSyntax).
Proof.
  split.
  - apply (Parse_first_slash "1" "2/3"). reflexivity.
  - apply (Parse_first_slash "x" "2"). reflexivity.
Defined.

(** ** Writing and reading back *)

Lemma digit_cases d :
  0 <= d <= 9 ->
  d = 0 \/ d = 1 \/ d = 2 \/ d = 3 \/ d = 4 \/
  d = 5 \/ d = 6 \/ d = 7 \/ d = 8 \/ d = 9.
Proof. lia. Qed.

Lemma digit_digit_char d :
  0 <= d <= 9 -> strconv.digit (strconv.digit_char d) = Some d.
Proof.
  intros H. destruct (digit_cases d H) as [E | E];
    repeat (destruct E as [E | E]; [subst d; reflexivity |]);
    subst d; reflexivity.
Qed.

Lemma digit_char_plain d :
  0 <= d <= 9 ->
  Ascii.eqb (strconv.digit_char d) "/" = false /\
  Ascii.eqb (strconv.digit_char d) "+" = false /\
  Ascii.eqb (strconv.digit_char d) "-" = false.
Proof.
  intros H. destruct (digit_cases d H) as [E | E];
    repeat (destruct E as [E | E]; [subst d; repeat split |]);
    subst d; repeat split.
Qed.

Lemma parse_format_digits fuel :
  forall u acc,
    0 <= u <= Int.modulus - 1 -> u < 10 ^ Z.of_nat fuel ->
    strconv.parse_digits 0 (strconv.format_digits fuel u acc)
    = strconv.parse_digits u acc.
Proof.
  induction fuel as [| fuel IH]; intros u acc Hu Hlt.
  - simpl in *. assert (u = 0) by lia. subst u. reflexivity.
  - simpl strconv.format_digits.
    destruct (Z.ltb_spec u 10) as [Hs | Hb].
    + simpl. rewrite digit_digit_char by lia.
      rewrite modulus_val in Hu.
      match goal with
      | |- context [?a <? u] => destruct (Z.ltb_spec a u)
      end; [lia | reflexivity].
    + pose proof (Z.div_mod u 10 ltac:(lia)) as Hdm.
      pose proof (Z.mod_pos_bound u 10 ltac:(lia)) as Hm.
      rewrite IH.
      * simpl. rewrite digit_digit_char by lia.
        replace (u / 10 * 10 + u mod 10) with u by lia.
        rewrite modulus_val in Hu.
        match goal with
        | |- context [?a <? u] => destruct (Z.ltb_spec a u)
        end; [lia | reflexivity].
      * lia.
      * rewrite Nat2Z.inj_succ, Z.pow_succ_r in Hlt by lia. lia.
Qed.

Lemma format_digits_head fuel :
  forall u acc,
    0 <= u -> (0 < fuel)%nat ->
    exists d s, 0 <= d <= 9 /\
      strconv.format_digits fuel u acc = String (strconv.digit_char d) s.
Proof.
  induction fuel as [| fuel IH]; intros u acc Hu Hf; [lia |].
  simpl. destruct (Z.ltb_spec u 10) as [Hs | Hb].
  - exists u, acc. split; [lia | reflexivity].
  - pose proof (Z.mod_pos_bound u 10 ltac:(lia)) as Hm.
    destruct fuel as [| fuel].
    + simpl. exists (u mod 10), acc. split; [lia | reflexivity].
    + apply IH; [apply Z.div_pos; lia | lia].
Qed.

Lemma format_digits_no_slash fuel :
  forall u acc,
    0 <= u -> index_slash acc = None ->
    index_slash (strconv.format_digits fuel u acc) = None.
Proof.
  induction fuel as [| fuel IH]; intros u acc Hu Ha; [exact Ha |].
  simpl. destruct (Z.ltb_spec u 10) as [Hs | Hb].
  - simpl. destruct (digit_char_plain u ltac:(lia)) as (-> & _). rewrite Ha. reflexivity.
  - pose proof (Z.mod_pos_bound u 10 ltac:(lia)) as Hm.
    apply IH; [apply Z.div_pos; lia |].
    simpl. destruct (digit_char_plain (u mod 10) ltac:(lia)) as (-> & _).
    rewrite Ha. reflexivity.
Qed.

Lemma ten_pow_20 : 10 ^ Z.of_nat 20 = 100000000000000000000.
Proof. reflexivity. Qed.

Lemma AppendInt_empty i :
  strconv.AppendInt EmptyString i =
  if i <? 0 then String "-" (strconv.format_digits 20 (- i) EmptyString)
  else strconv.format_digits 20 i EmptyString.
Proof. reflexivity. Qed.

Lemma Atoi_AppendInt i :
  Int.in_range i ->
  strconv.Atoi (strconv.AppendInt EmptyString i) = (i, None).
Proof.
  intros Hi. rewrite AppendInt_empty.
  destruct (Z.ltb_spec i 0) as [Hneg | Hnn].
  - assert (Hu : 0 <= - i <= Int.modulus - 1).
    { revert Hi. int_consts. lia. }
    assert (Hlt : - i < 10 ^ Z.of_nat 20).
    { rewrite ten_pow_20. revert Hi. int_consts. lia. }
    pose proof (parse_format_digits 20 (- i) EmptyString Hu Hlt) as Hp.
    destruct (format_digits_head 20 (- i) EmptyString) as (d & s & Hd & Hs);
      [lia | lia |].
    remember (strconv.format_digits 20 (- i) EmptyString) as fs eqn:Efs.
    unfold strconv.Atoi. simpl Ascii.eqb. cbv iota.
    unfold strconv.ParseUint. rewrite Hs. rewrite <- Hs, Hp. simpl.
    change (Z.pow_pos 2 63) with 9223372036854775808.
    destruct (Z.ltb_spec 9223372036854775808 (- i)).
    + revert Hi. int_consts. lia.
    + f_equal. lia.
  - assert (Hu : 0 <= i <= Int.modulus - 1).
    { revert Hi. int_consts. lia. }
    assert (Hlt : i < 10 ^ Z.of_nat 20).
    { rewrite ten_pow_20. revert Hi. int_consts. lia. }
    pose proof (parse_format_digits 20 i EmptyString Hu Hlt) as Hp.
    destruct (format_digits_head 20 i EmptyString) as (d & s & Hd & Hs);
      [lia | lia |].
    destruct (digit_char_plain d Hd) as (_ & Hplus & Hminus).
    remember (strconv.format_digits 20 i EmptyString) as fs eqn:Efs.
    unfold strconv.Atoi. rewrite Hs, Hplus, Hminus.
    unfold strconv.ParseUint. rewrite <- Hs, Hp. simpl.
    change (Z.pow_pos 2 63) with 9223372036854775808.
    destruct (Z.leb_spec 9223372036854775808 i).
    + revert Hi. int_consts. lia.
    + reflexivity.
Qed.

Lemma AppendInt_shape i :
  index_slash (strconv.AppendInt EmptyString i) = None /\
  strconv.AppendInt EmptyString i <> EmptyString.
Proof.
  rewrite AppendInt_empty.
  destruct (Z.ltb_spec i 0) as [Hneg | Hnn].
  - split; [| discriminate].
    pose proof (format_digits_no_slash 20 (- i) EmptyString ltac:(lia) eq_refl) as H.
    remember (strconv.format_digits 20 (- i) EmptyString) as fs.
    simpl. rewrite H. reflexivity.
  - split; [apply format_digits_no_slash; [lia | reflexivity] |].
    destruct (format_digits_head 20 i EmptyString) as (d & s & _ & ->);
      [lia | lia | discriminate].
Qed.

Lemma AppendInt_append b i :
  strconv.AppendInt b i = (b ++ strconv.AppendInt EmptyString i)%string.
Proof. reflexivity. Qed.

Lemma append_slash s t : ((s ++ "/") ++ t)%string = (s ++ String "/" t)%string.
Proof. induction s as [| c s IH]; simpl; [reflexivity | rewrite IH; reflexivity]. Qed.

(** X29. Reading back what [String] writes: for a fraction of machine
    integers, [Parse] applied to the text of [String] succeeds and returns
    the fraction whose fields [String] wrote, that is [x] itself when the
    denominator is not negative and [x] with both fields negated
    (wrapping at the minimum integer) when it is. *)
Theorem Parse_String_roundtrip x :
  wf x ->
  Parse (Method.String x) =
  ((if D x <? 0 then mkF (Int.neg (N x)) (Int.neg (D x)) else x), None) /\
  (0 <= D x -> Parse (Method.String x) = (x, None)).
Proof.
  intros [Hn Hd].
  assert (G : forall n d, Int.in_range n -> Int.in_range d ->
            Parse (strconv.AppendInt
                     (strconv.AppendInt EmptyString n ++ "/")%string d)
            = (mkF n d, None)).
  { intros n d Rn Rd. rewrite AppendInt_append, append_slash.
    destruct (AppendInt_shape n) as [Sn _].
    destruct (AppendInt_shape d) as [_ Sd].
    unfold Parse. rewrite (index_slash_first _ _ Sn).
    rewrite substring_prefix, length_append_cons, substring_after.
    rewrite (Atoi_AppendInt n Rn), (Atoi_AppendInt d Rd).
    destruct (strconv.AppendInt EmptyString d); [contradiction | reflexivity]. }
  assert (E : Parse (Method.String x) =
              ((if D x <? 0 then mkF (Int.neg (N x)) (Int.neg (D x)) else x), None)).
  { unfold Method.String. cbv zeta.
    destruct (D x <? 0); simpl N; simpl D.
    - apply G; apply wrap_range.
    - rewrite G by assumption. destruct x; reflexivity. }
  split; [exact E |].
  intros Hpos. rewrite E. destruct (Z.ltb_spec (D x) 0); [lia | reflexivity].
Qed.

Lemma Parse_String_roundtrip_witness :
  Parse (Method.String (mkF (-3) 7)) = (mkF (-3) 7, None).
Proof.
  assert (W : wf (mkF (-3) 7)) by (split; vm_compute; split; discriminate).
  apply (proj2 (Parse_String_roundtrip (mkF (-3) 7) W)).
  simpl. lia.
Defined.

(** ** Scaling a fraction that is not in lowest terms *)

(** X30. [NormTo] takes the new denominator [m] from the reduced form of
    [x] but scales with [m / x.D] on the original denominator, a
    truncating division.  So for a positive [x.D] different from [y.D], a
    nonzero numerator and no overflow, the result stands for the same
    rational as [x] exactly when [x.D] divides the new denominator. *)
Theorem NormTo_value_iff x y r :
  wf x -> wf y -> 0 < D x -> N x <> 0 -> D x <> D y ->
  NormTo x y = Ok r -> D r <> 0 ->
  Int.in_range (D r ÷ D x * N x) ->
  ((ratio r == ratio x)%Q <-> (D x | D r)).
Proof.
  intros Wx Wy Hd Hn Hne Hr Hr0 Hmul.
  unfold NormTo in Hr. destruct (Z.eqb_spec (D x) (D y)); [contradiction |].
  destruct (Reduce x) as [rx | e] eqn:Hrx; simpl in Hr; [| discriminate].
  destruct (LCM (D rx) (D y)) as [m | e] eqn:Hm; simpl in Hr; [| discriminate].
  assert (Rm : Int.in_range m).
  { destruct (Reduce_wf x rx Hrx) as [_ Rrx]. destruct Wy as [_ Ry].
    exact (LCM_in_range (D rx) (D y) m Rrx Hm). }
  rewrite Int_div_exact in Hr by assumption. simpl in Hr.
  injection Hr as <-. simpl in *.
  unfold Int.mul. rewrite wrap_id by assumption.
  unfold ratio. simpl. rewrite ratio_eq_cross by lia.
  split.
  - intros E. exists (m ÷ D x).
    apply (Z.mul_cancel_l _ _ (N x) Hn). lia.
  - intros [k Hk]. subst m. rewrite Z.quot_mul by lia. ring.
Qed.

Lemma NormTo_value_iff_witness :
  NormTo (mkF 2 4) (mkF 1 3) = Ok (mkF 2 6) /\
  ~ (ratio (mkF 2 6) == ratio (mkF 2 4))%Q.
Proof.
  assert (E : NormTo (mkF 2 4) (mkF 1 3) = Ok (mkF 2 6)) by reflexivity.
  split; [exact E |].
  assert (W1 : wf (mkF 2 4)) by (split; vm_compute; split; discriminate).
  assert (W2 : wf (mkF 1 3)) by (split; vm_compute; split; discriminate).
  assert (R : Int.in_range (D (mkF 2 6) ÷ D (mkF 2 4) * N (mkF 2 4)))
    by (vm_compute; split; discriminate).
  intros Q.
  apply (NormTo_value_iff (mkF 2 4) (mkF 1 3) (mkF 2 6) W1 W2) in Q;
    try exact E; try exact R; try (simpl; lia).
  simpl in Q. destruct Q as [k Hk]. lia.
Defined.
